(** * A shallow embedding of the Rule 30 validator and miner

    Source files embedded here:
    - [src/rule_30/miner/compute.py]: [compute_response], the worker's
      transform of one chunk, going through Python's unbounded integers and
      little-endian byte strings;
    - [src/rule_30/validator/validator.py]: [normalize_response_data] with its
      local [rule_30] and [normalize_pair], the chunking and the collection
      part of [Validator.do_step], [Validator.run]'s exception handling,
      [__init__] / [load_state] and [set_weights].

    A [np.uint64] is a [Z] in [0, 2^64) and every numpy shift or OR that can
    overflow is followed by an explicit [mod 2^64].  A byte is a [Z] in
    [0, 256).  Python's unbounded [int] is a nonnegative [Z].  Worker scores,
    Python floats, are rationals [Q]: the code only adds them, divides by a
    latency and compares the sum with [0.0]. *)

From Stdlib Require Import String.
From Stdlib Require Import ZArith List Lia Bool QArith.
Import ListNotations.

Open Scope Z_scope.

(** ** Machine words and byte strings *)

Definition W : Z := 64.
Definition word_mod : Z := 2 ^ 64.

(** Little-endian value of a row of 64-bit words: the concatenated bit
    vector, word 0 at the least significant end. *)
Fixpoint words_value (ws : list Z) : Z :=
  match ws with
  | [] => 0
  | w :: ws' => w + word_mod * words_value ws'
  end.


Definition is_word (w : Z) : Prop := 0 <= w < word_mod.

(** [int.to_bytes(n, 'little')] on a value known to fit in [n] bytes. *)
Fixpoint le_bytes (n : nat) (t : Z) : list Z :=
  match n with
  | O => []
  | S n' => t mod 256 :: le_bytes n' (t / 256)
  end.

(** [int.from_bytes(bs, 'little')]. *)
Fixpoint from_bytes_le (bs : list Z) : Z :=
  match bs with
  | [] => 0
  | b :: bs' => b + 256 * from_bytes_le bs'
  end.

(** [ndarray.tobytes()] of a [uint64] array (little-endian host). *)
Definition tobytes (ws : list Z) : list Z :=
  flat_map (le_bytes 8) ws.

(** [int.to_bytes(n, 'little')]: [OverflowError] when the value does not
    fit, which is [None] here. *)
Definition to_bytes (t : Z) (n : Z) : option (list Z) :=
  if t <? 256 ^ n then Some (le_bytes (Z.to_nat n) t) else None.

(** [np.frombuffer(bs, dtype=np.uint64)]: groups of eight bytes;
    [ValueError] when the length is not a multiple of eight. *)
Fixpoint frombuffer_aux (fuel : nat) (bs : list Z) : option (list Z) :=
  match bs with
  | [] => Some []
  | _ =>
    match fuel with
    | O => None
    | S fuel' =>
      if (length bs <? 8)%nat then None
      else
        match frombuffer_aux fuel' (skipn 8 bs) with
        | Some ws => Some (from_bytes_le (firstn 8 bs) :: ws)
        | None => None
        end
    end
  end.

Definition frombuffer_u64 (bs : list Z) : option (list Z) :=
  frombuffer_aux (length bs) bs.

(** [int.bit_length()]. *)
Definition bit_length (t : Z) : Z :=
  if t =? 0 then 0 else Z.log2 (Z.abs t) + 1.

(** The Rule 30 word update on an unbounded integer:
    [x ^ ((x << 1) | (x << 2))]. *)
Definition rule30_int (x : Z) : Z :=
  Z.lxor x (Z.lor (Z.shiftl x 1) (Z.shiftl x 2)).

(** ** The worker: [compute_response] (src/rule_30/miner/compute.py) *)

Definition compute_num_bytes (t : Z) : Z :=
  let num_bytes := (bit_length t + 7) / 8 in
  num_bytes + (8 - num_bytes mod 8).

Definition compute_response (data : list Z) : option (list Z) :=
  let raw_bytes := tobytes data in
  let combined_int := from_bytes_le raw_bytes in
  let transformed_int := rule30_int combined_int in
  let num_bytes := compute_num_bytes transformed_int in
  match to_bytes transformed_int num_bytes with
  | Some transformed_bytes => frombuffer_u64 transformed_bytes
  | None => None
  end.

(** ** The validator's reconciliation (src/rule_30/validator/validator.py) *)

(** The local [rule_30] on a [np.uint64]: the shifts wrap modulo [2^64]. *)
Definition rule_30 (a : Z) : Z :=
  Z.lxor a (Z.lor (Z.shiftl a 1 mod word_mod) (Z.shiftl a 2 mod word_mod)).

Definition normalize_pair (a b : Z) : Z * Z :=
  let carry := Z.land a 1 in
  let a := Z.shiftr a 1 in
  let b := Z.lor (Z.shiftl carry 63 mod word_mod) b in
  let a := rule_30 a in
  let b := rule_30 b in
  let msb := Z.shiftr b 63 in
  let b := Z.land b (2 ^ 63 - 1) in
  let a := Z.lor (Z.shiftl a 1 mod word_mod) msb in
  (a, b).

Definition last_error {A} (l : list A) : option A :=
  match rev l with
  | [] => None
  | x :: _ => Some x
  end.

(** [arr[-1] = a] on a non-empty array. *)
Definition set_last {A} (l : list A) (a : A) : list A := removelast l ++ [a].

(** [arr[0] = b] on a non-empty array. *)
Definition set_first {A} (l : list A) (b : A) : list A := b :: tl l.

(** The [for i in range(len(outputs) - 1)] loop, which rewrites
    [outputs[i][-1]] and [outputs[i + 1][0]] in place.  [cur] is chunk [i]
    as the previous iteration left it.  [None] is the [IndexError] raised by
    indexing an empty chunk. *)
Fixpoint normalize_loop (cur : list Z) (rest : list (list Z))
  : option (list (list Z)) :=
  match rest with
  | [] => Some [cur]
  | nxt :: rest' =>
    match last_error cur, hd_error nxt with
    | Some a, Some b =>
      let '(a', b') := normalize_pair a b in
      match normalize_loop (set_first nxt b') rest' with
      | Some outs => Some (set_last cur a' :: outs)
      | None => None
      end
    | _, _ => None
    end
  end.

(** The whole loop over [outputs]. *)
Definition boundary_loop (outputs : list (list Z)) : option (list (list Z)) :=
  match outputs with
  | [] => Some []
  | c :: r => normalize_loop c r
  end.

(** [normalize_response_data].  After the loop, [i] is [len(outputs) - 2]
    when there are at least two chunks and [0] otherwise (truncated
    subtraction on [nat] gives both); the result is [outputs[i]], followed
    by [outputs[-1]] when [i] is not zero.  With no chunk at all,
    [outputs[0]] raises [IndexError]. *)
Definition normalize_response_data (outputs : list (list Z)) : option (list Z) :=
  match boundary_loop outputs with
  | None => None
  | Some outs =>
    let i := (length outputs - 2)%nat in
    match nth_error outs i with
    | None => None
    | Some ci =>
      if Nat.eqb i 0 then Some ci
      else
        match last_error outs with
        | Some cl => Some (ci ++ cl)
        | None => None
        end
    end
  end.

(** Every chunk sent to [compute_response] by its own worker, in order. *)
Fixpoint transform_chunks (chunks : list (list Z)) : option (list (list Z)) :=
  match chunks with
  | [] => Some []
  | c :: cs =>
    match compute_response c, transform_chunks cs with
    | Some o, Some os => Some (o :: os)
    | _, _ => None
    end
  end.

(** ** The validator's state and its exceptions *)

(** The fields of [Validator] that the evolution loop reads and writes;
    [step] is a [np.uint64]. *)
Record Validator := mkValidator {
  step : Z;
  current_row : list Z;
  center_column : list Z;
  scores : list Q;
  valid_miners : list nat;
  hotkeys : list String.string
}.

Inductive exn :=
| IndexError
| AttributeError
| ZeroDivisionError
| ValueError
| UnrecoverableError.

(** Methods of [Validator] mutate [self] and may raise: a state and
    exception monad, where a raised exception keeps the mutations made
    before it. *)
Definition M (A : Type) : Type := Validator -> (exn + A) * Validator.

Definition ret {A} (a : A) : M A := fun s => (inr a, s).

Definition bind {A B} (m : M A) (f : A -> M B) : M B :=
  fun s =>
    match m s with
    | (inl e, s') => (inl e, s')
    | (inr a, s') => f a s'
    end.

Notation "x <- m ;; k" := (bind m (fun x => k))
  (at level 61, m at next level, right associativity).
Notation "m ;;; k" := (bind m (fun _ => k))
  (at level 61, right associativity).

Definition get : M Validator := fun s => (inr s, s).
Definition put (s : Validator) : M unit := fun _ => (inr tt, s).
Definition throw {A} (e : exn) : M A := fun s => (inl e, s).

Definition lift_opt {A} (e : exn) (o : option A) : M A :=
  match o with
  | Some a => ret a
  | None => throw e
  end.

Fixpoint forM_ {A} (f : A -> M unit) (l : list A) : M unit :=
  match l with
  | [] => ret tt
  | x :: l' => f x ;;; forM_ f l'
  end.

Fixpoint mapM {A B} (f : A -> M B) (l : list A) : M (list B) :=
  match l with
  | [] => ret []
  | x :: l' => y <- f x ;; ys <- mapM f l' ;; ret (y :: ys)
  end.

Definition set_step (s : Validator) (v : Z) : Validator :=
  mkValidator v (current_row s) (center_column s) (scores s) (valid_miners s) (hotkeys s).
Definition set_current_row (s : Validator) (v : list Z) : Validator :=
  mkValidator (step s) v (center_column s) (scores s) (valid_miners s) (hotkeys s).
Definition set_center_column (s : Validator) (v : list Z) : Validator :=
  mkValidator (step s) (current_row s) v (scores s) (valid_miners s) (hotkeys s).
Definition set_scores (s : Validator) (v : list Q) : Validator :=
  mkValidator (step s) (current_row s) (center_column s) v (valid_miners s) (hotkeys s).

(** Python's [l[i] = v] on a list: [IndexError] out of range. *)
Fixpoint list_set {A} (l : list A) (i : nat) (v : A) : option (list A) :=
  match l, i with
  | [], _ => None
  | _ :: l', O => Some (v :: l')
  | x :: l', S i' => option_map (cons x) (list_set l' i' v)
  end.

(** ** [Validator.do_step] *)

(** [chunks = [(nodes[uid], list(islice(iterator, chunk_size))) for uid in
    self.valid_miners]]: every chunk takes the next [chunk_size] words of one
    shared iterator over the row. *)
Fixpoint take_chunks (it : list Z) (chunk_size : nat) (uids : list nat)
  : list (nat * list Z) :=
  match uids with
  | [] => []
  | uid :: uids' =>
    (uid, firstn chunk_size it) :: take_chunks (skipn chunk_size it) chunk_size uids'
  end.

(** [chunk_size = ceil(len(self.current_row) // len(self.valid_miners))]:
    [ceil] of an integer quotient is that quotient. *)
Definition chunk_size_of (row : list Z) (uids : list nat) : nat :=
  Nat.div (length row) (length uids).

Definition partition (row : list Z) (uids : list nat) : list (nat * list Z) :=
  take_chunks row (chunk_size_of row uids) uids.

(** [self.scores[uid] = 0.0] or [1 / inference_time]. *)
Definition score_one (r : nat * (option (list Z) * Q)) : M unit :=
  let '(uid, (response, inference_time)) := r in
  st <- get ;;
  v <- (match response with
        | None => ret 0%Q
        | Some _ =>
          if Qeq_bool inference_time 0 then throw ZeroDivisionError
          else ret (/ inference_time)%Q
        end) ;;
  sc <- lift_opt IndexError (list_set (scores st) uid v) ;;
  put (set_scores st sc).

(** [response.parts]: [AttributeError] on [None]. *)
Definition parts_of (r : nat * (option (list Z) * Q)) : M (list Z) :=
  let '(_, (response, _)) := r in lift_opt AttributeError response.

(** [self.center_column[-1] |= current_row_part >> bit_index << bit_index]. *)
Definition track_center (g : Z) (row cc : list Z) : option (list Z) :=
  let bit_index := g mod 64 in
  match nth_error row (Z.to_nat (g / 64)), last_error cc with
  | Some current_row_part, Some cc_last =>
    Some (set_last cc
            (Z.lor cc_last
               (Z.shiftl (Z.shiftr current_row_part bit_index) bit_index mod word_mod)))
  | _, _ => None
  end.

Section DoStep.

(** The concurrent requests: [asyncio.gather] of the [compute] requests, one
    per chunk, giving for each the parsed [ComputationData] parts, [None]
    for a worker that did not answer, and the measured latency. *)
Variable gather : list (nat * list Z) -> list (option (list Z) * Q).

(** [do_step] from the dispatch on (the partition of the row among
    [valid_miners]), with the [valid_miners] it finds there.  The opening
    [sync] and the wait for a non-empty [valid_miners] are not part of it.
    [nodes_list] and [nodes[uid]] only pick the addresses the requests go
    to, which [gather] stands for; an [IndexError] they raise comes before
    any field changes.  [save_state] and [check_wandb_run] only write the
    state out. *)
Definition do_step_dispatch : M unit :=
  st <- get ;;
  match valid_miners st with
  | [] => throw ZeroDivisionError
  | _ =>
    let chunks := partition (current_row st) (valid_miners st) in
    let responses := combine (valid_miners st) (gather chunks) in
    forM_ score_one responses ;;;
    data <- mapM parts_of responses ;;
    row <- lift_opt IndexError (normalize_response_data data) ;;
    st <- get ;;
    put (set_current_row st row) ;;;
    st <- get ;;
    cc <- lift_opt IndexError (track_center (step st) (current_row st) (center_column st)) ;;
    put (set_center_column st cc) ;;;
    st <- get ;;
    put (set_step st ((step st + 1) mod word_mod))
  end.

(** The handler of [while True] in [Validator.run] around the dispatch:
    [UnrecoverableError] is re-raised ([Some]), any other exception is
    logged and the loop goes on ([None]) with the state as the failed step
    left it. *)
Definition run_iteration (s : Validator) : option exn * Validator :=
  match do_step_dispatch s with
  | (inl UnrecoverableError, s') => (Some UnrecoverableError, s')
  | (_, s') => (None, s')
  end.

End DoStep.

(** ** [Validator.__init__] and [load_state] *)

Record SavedState := mkSavedState {
  saved_step : Z;
  saved_current_row : list Z;
  saved_center_column : list Z;
  saved_valid_miners : list nat;
  saved_hotkeys : list String.string
}.

(** [load_state]: [file] is the [state.npz] file, [None] when it does not
    exist. *)
Definition load_state (file : option SavedState) (s : Validator) : Validator :=
  match file with
  | None => s
  | Some f =>
    mkValidator (saved_step f) (saved_current_row f) (saved_center_column f)
                (scores s) (saved_valid_miners f) (saved_hotkeys f)
  end.

(** [__init__], given the hotkeys of the synced metagraph nodes. *)
Definition validator_init (nodes : list String.string) (file : option SavedState)
  : Validator :=
  load_state file
    (mkValidator 1 [1] [1] (repeat 0%Q (length nodes)) [] nodes).

(** ** [Validator.set_weights] *)

Record WeightCall := mkWeightCall {
  node_ids : list nat;
  node_weights : list Q;
  validator_node_id : nat
}.

Fixpoint index_of (k : String.string) (l : list String.string) : option nat :=
  match l with
  | [] => None
  | x :: l' =>
    if String.eqb x k then Some O else option_map S (index_of k l')
  end.

(** The arguments passed to [set_node_weights]; [n_nodes] is
    [len(self.metagraph.nodes)] and [my_hotkey] the validator's own
    address, looked up with [self.hotkeys.index] ([ValueError] when absent). *)
Definition set_weights (s : Validator) (n_nodes : nat) (my_hotkey : String.string)
  : exn + WeightCall :=
  let weights :=
    if Qle_bool (fold_left Qplus (scores s) 0%Q) 0%Q
    then repeat 1%Q n_nodes
    else scores s in
  match index_of my_hotkey (hotkeys s) with
  | None => inl ValueError
  | Some i => inr (mkWeightCall (seq 0 n_nodes) weights i)
  end.

(** ** [Validator.sync]: the membership update *)

(** A metagraph node: its hotkey (also its key in [self.metagraph.nodes])
    and its uid [node_id].  A list of nodes stands for the dict's values in
    iteration order. *)
Record Node := mkNode {
  node_hotkey : String.string;
  node_id : nat
}.

(** [hotkey in self.metagraph.nodes]. *)
Definition registered (nodes : list Node) (hk : String.string) : bool :=
  existsb (fun n => String.eqb (node_hotkey n) hk) nodes.

(** The loop [nodes[node.node_id] = node] of [nodes_list]. *)
Fixpoint place_nodes (slots : list (option Node)) (nodes : list Node)
  : option (list (option Node)) :=
  match nodes with
  | [] => Some slots
  | n :: ns =>
    match list_set slots (node_id n) (Some n) with
    | Some slots' => place_nodes slots' ns
    | None => None
    end
  end.

(** [nodes_list]: [len(self.metagraph.nodes) * [None]], then every node at
    its uid; [None] is the [IndexError] of a uid past the end. *)
Definition nodes_list (nodes : list Node) : option (list (option Node)) :=
  place_nodes (repeat None (length nodes)) nodes.

(** [check_registered], for the validator's own address [me]. *)
Definition check_registered (nodes : list Node) (me : String.string) : M unit :=
  if registered nodes me then ret tt else throw UnrecoverableError.

(** [new_scores = [0.0] * n_nodes; new_scores[:length] = self.scores[:length]]
    with [length = n_hotkeys]: the slice assignment puts
    [self.scores[:length]] in place of [new_scores[:length]]. *)
Definition resize_scores (scores : list Q) (n_hotkeys n_nodes : nat) : list Q :=
  firstn n_hotkeys scores ++ skipn n_hotkeys (repeat 0%Q n_nodes).

(** One turn of [for uid, hotkey in enumerate(self.hotkeys)]. *)
Definition zero_departed (nodes : list Node) (e : nat * String.string) : M unit :=
  let '(uid, hk) := e in
  if registered nodes hk then ret tt
  else
    st <- get ;;
    sc <- lift_opt IndexError (list_set (scores st) uid 0%Q) ;;
    put (set_scores st sc).

(** [node.hotkey] on a slot of [nodes_list]: [AttributeError] on [None]. *)
Definition slot_hotkey (slot : option Node) : M String.string :=
  lift_opt AttributeError (option_map node_hotkey slot).

Definition set_valid_miners (s : Validator) (v : list nat) : Validator :=
  mkValidator (step s) (current_row s) (center_column s) (scores s) v (hotkeys s).
Definition set_hotkeys (s : Validator) (v : list String.string) : Validator :=
  mkValidator (step s) (current_row s) (center_column s) (scores s) (valid_miners s) v.

(** [sync] from [check_registered] (line 156) to the new [self.hotkeys]
    (line 173), given the synced nodes.  The metagraph refresh and the
    assignment [self.last_metagraph_sync = block] before it are not part of
    it ([Validator] has no such field); the requests to the workers and
    [set_weights] that follow depend on the network. *)
Definition sync_members (nodes : list Node) (me : String.string) : M unit :=
  check_registered nodes me ;;;
  st <- get ;;
  put (set_valid_miners st []) ;;;
  st <- get ;;
  (if negb (Nat.eqb (length (hotkeys st)) (length nodes))
   then put (set_scores st (resize_scores (scores st) (length (hotkeys st))
                                          (length nodes)))
   else ret tt) ;;;
  slots <- lift_opt IndexError (nodes_list nodes) ;;
  st <- get ;;
  forM_ (zero_departed nodes) (combine (seq 0 (length (hotkeys st))) (hotkeys st)) ;;;
  hks <- mapM slot_hotkey slots ;;
  st <- get ;;
  put (set_hotkeys st hks).

(** ** Definitions that follow the spec's words *)

(** WordTransform of the spec (section 4.1): [x XOR ((x << 1) | (x << 2))]
    modulo [2^W]. *)
Definition word_transform (x : Z) : Z := rule30_int x mod word_mod.

(** The seven steps of the spec's BoundaryReconciler (section 4.3), with
    [W = 64]. *)
Definition normalize_pair_spec (a b : Z) : Z * Z :=
  let carry := Z.land a 1 in
  let a' := Z.shiftr a 1 in
  let b' := Z.lor (Z.shiftl carry (W - 1)) b in
  let a'' := word_transform a' in
  let b'' := word_transform b' in
  let msb := Z.b2z (Z.testbit b'' (W - 1)) in
  let b_final := Z.clearbit b'' (W - 1) in
  let a_final := Z.lor (Z.shiftl a'' 1) msb mod word_mod in
  (a_final, b_final).


(** One generation as the spec's refinement property pictures it: each
    chunk through [compute_response], then [normalize_response_data]. *)
Definition reconcile_row (chunks : list (list Z)) : option (list Z) :=
  match transform_chunks chunks with
  | Some outs => normalize_response_data outs
  | None => None
  end.

(** * Bit-level facts *)

Lemma word_mod_pow : word_mod = 2 ^ 64.
Proof. reflexivity. Qed.

Lemma word_bits_high (x n : Z) : is_word x -> 64 <= n -> Z.testbit x n = false.
Proof.
  intros [H0 H1] Hn.
  rewrite <- (Z.mod_small x (2 ^ 64)) by (unfold word_mod in H1; lia).
  apply Z.mod_pow2_bits_high; lia.
Qed.

Lemma is_word_of_bits (x : Z) :
  0 <= x -> (forall n, 64 <= n -> Z.testbit x n = false) -> is_word x.
Proof.
  intros H0 Hb.
  assert (E : x = x mod 2 ^ 64).
  { apply Z.bits_inj'; intros n Hn.
    rewrite Z.testbit_mod_pow2 by lia.
    destruct (Z.ltb_spec n 64); simpl; [reflexivity | now apply Hb]. }
  unfold is_word; rewrite word_mod_pow, E.
  apply Z.mod_pos_bound; lia.
Qed.

Lemma testbit_b2z (b : bool) (n : Z) :
  0 <= n -> Z.testbit (Z.b2z b) n = (b && (n =? 0))%bool.
Proof.
  intros Hn; destruct b; simpl.
  - destruct (Z.eqb_spec n 0) as [->|Hne]; [reflexivity|].
    apply Z.bits_above_log2; simpl; lia.
  - apply Z.bits_0.
Qed.

Ltac bits_rw :=
  repeat first
    [ rewrite Z.lxor_spec | rewrite Z.lor_spec | rewrite Z.land_spec
    | rewrite Z.clearbit_eqb
    | rewrite Z.testbit_mod_pow2 by lia
    | rewrite testbit_b2z by lia
    | rewrite Z.shiftl_spec by lia
    | rewrite Z.shiftr_spec by lia ].

(** Splits on the position of bit [n] with respect to the bounds that
    occur in the goal and closes what is left by case analysis. *)
Ltac bits_cases n :=
  repeat match goal with
  | |- context [Z.ltb ?a ?b] =>
      destruct (Z.ltb_spec a b); simpl
  | |- context [Z.eqb ?a ?b] =>
      destruct (Z.eqb_spec a b); simpl
  end.

Lemma shiftr_is_word (x k : Z) : is_word x -> 0 <= k -> is_word (Z.shiftr x k).
Proof.
  intros Hx Hk; apply is_word_of_bits.
  - apply Z.shiftr_nonneg; unfold is_word in Hx; lia.
  - intros n Hn; rewrite Z.shiftr_spec by lia; apply word_bits_high; auto; lia.
Qed.

Lemma mod_is_word (x : Z) : is_word (x mod word_mod).
Proof. unfold is_word; apply Z.mod_pos_bound; reflexivity. Qed.

Lemma lor_is_word (x y : Z) : is_word x -> is_word y -> is_word (Z.lor x y).
Proof.
  intros Hx Hy; apply is_word_of_bits.
  - apply Z.lor_nonneg; unfold is_word in *; lia.
  - intros n Hn; rewrite Z.lor_spec, !word_bits_high; auto.
Qed.

Lemma land_is_word (x y : Z) : is_word x -> 0 <= y -> is_word (Z.land x y).
Proof.
  intros Hx Hy; apply is_word_of_bits.
  - apply Z.land_nonneg; unfold is_word in *; lia.
  - intros n Hn; rewrite Z.land_spec, word_bits_high; auto.
Qed.

Lemma rule_30_is_word (x : Z) : is_word x -> is_word (rule_30 x).
Proof.
  intros Hx; unfold rule_30.
  apply is_word_of_bits.
  - apply Z.lxor_nonneg; split; intros _;
      [apply Z.lor_nonneg; split; apply Z.mod_pos_bound; reflexivity
      | unfold is_word in Hx; lia].
  - intros n Hn; unfold word_mod; bits_rw.
    rewrite word_bits_high by (auto; lia).
    destruct (Z.ltb_spec n 64); simpl; [lia | reflexivity].
Qed.

Lemma testbit_one (k : Z) : Z.testbit 1 k = (k =? 0).
Proof.
  destruct (Z.lt_trichotomy k 0) as [H|[H|H]].
  - rewrite Z.testbit_neg_r by lia; symmetry; apply Z.eqb_neq; lia.
  - subst; reflexivity.
  - rewrite Z.bits_above_log2 by (simpl; lia); symmetry; apply Z.eqb_neq; lia.
Qed.

(** Clears [Z.testbit w k] for [k >= 64] and [w] a known word. *)
Ltac words_high :=
  repeat match goal with
  | Hw : is_word ?w |- context [Z.testbit ?w ?k] =>
      rewrite (word_bits_high w k Hw) by lia
  end.

Lemma rule_30_word_transform (x : Z) : is_word x -> rule_30 x = word_transform x.
Proof.
  intros Hx; unfold rule_30, word_transform, rule30_int, word_mod.
  apply Z.bits_inj'; intros n Hn; bits_rw.
  destruct (Z.ltb_spec n 64); simpl; [reflexivity|].
  words_high; reflexivity.
Qed.

Lemma carry_shift (a : Z) :
  Z.shiftl (Z.land a 1) 63 mod word_mod = Z.shiftl (Z.land a 1) (W - 1).
Proof.
  unfold word_mod, W; apply Z.bits_inj'; intros n Hn.
  bits_rw; rewrite testbit_one.
  destruct (Z.ltb_spec n 64); simpl; [reflexivity|].
  rewrite testbit_one; destruct (Z.eqb_spec (n - 63) 0); [lia|].
  rewrite andb_false_r; reflexivity.
Qed.

Lemma word_transform_is_word (x : Z) : is_word (word_transform x).
Proof. apply mod_is_word. Qed.

Lemma shiftr_63_top (x : Z) :
  is_word x -> Z.shiftr x 63 = Z.b2z (Z.testbit x (W - 1)).
Proof.
  intros Hx; unfold W; apply Z.bits_inj'; intros n Hn.
  bits_rw.
  destruct (Z.eqb_spec n 0).
  - subst; rewrite andb_true_r; reflexivity.
  - rewrite andb_false_r; words_high; reflexivity.
Qed.

Lemma ones_63 : 2 ^ 63 - 1 = Z.ones 63.
Proof. reflexivity. Qed.

Lemma normalize_pair_low (A m : Z) :
  Z.lor (Z.shiftl A 1 mod word_mod) (Z.b2z (Z.testbit m (W - 1)))
  = Z.lor (Z.shiftl A 1) (Z.b2z (Z.testbit m (W - 1))) mod word_mod.
Proof.
  unfold word_mod; apply Z.bits_inj'; intros n Hn; bits_rw.
  destruct (Z.ltb_spec n 64); simpl; [reflexivity|].
  destruct (Z.eqb_spec n 0); [lia|]; rewrite andb_false_r; reflexivity.
Qed.

Lemma normalize_pair_high (B : Z) :
  is_word B -> Z.land B (Z.ones 63) = Z.clearbit B (W - 1).
Proof.
  intros HB; unfold W; change (64 - 1) with 63.
  apply Z.bits_inj'; intros n Hn; bits_rw.
  rewrite Z.testbit_ones by lia.
  destruct (Z.leb_spec 0 n); [|lia].
  destruct (Z.ltb_spec n 63), (Z.eqb_spec 63 n); cbn [andb negb]; try lia;
    rewrite ?andb_true_r, ?andb_false_r; try reflexivity.
  words_high; reflexivity.
Qed.

(** * Facts about the monad and the state updates *)

Lemma bind_run {A B} (m : M A) (f : A -> M B) (s : Validator) :
  bind m f s = match m s with
               | (inl e, s') => (inl e, s')
               | (inr a, s') => f a s'
               end.
Proof. reflexivity. Qed.

(** The fields that only [do_step]'s final stores touch. *)
Definition same_evolution (s s' : Validator) : Prop :=
  step s' = step s /\ current_row s' = current_row s /\
  center_column s' = center_column s /\ valid_miners s' = valid_miners s.

Lemma same_evolution_refl s : same_evolution s s.
Proof. repeat split. Qed.

Lemma same_evolution_trans s1 s2 s3 :
  same_evolution s1 s2 -> same_evolution s2 s3 -> same_evolution s1 s3.
Proof. unfold same_evolution; intuition congruence. Qed.

Lemma score_one_frame r s :
  same_evolution s (snd (score_one r s)).
Proof.
  destruct r as [uid [[parts|] t]];
    cbv [score_one bind get ret put lift_opt throw]; simpl.
  - destruct (Qeq_bool t 0); simpl; [apply same_evolution_refl|].
    destruct (list_set (scores s) uid (/ t)%Q); simpl;
      [repeat split | apply same_evolution_refl].
  - destruct (list_set (scores s) uid 0%Q); simpl;
      [repeat split | apply same_evolution_refl].
Qed.

Lemma forM_score_frame l s :
  same_evolution s (snd (forM_ score_one l s)).
Proof.
  revert s; induction l as [|r l IH]; intros s; simpl; [apply same_evolution_refl|].
  rewrite bind_run.
  pose proof (score_one_frame r s) as Hf.
  destruct (score_one r s) as [[e|[]] s1]; simpl in *; [exact Hf|].
  eapply same_evolution_trans; [exact Hf | apply IH].
Qed.

Lemma mapM_parts_state l s :
  snd (mapM parts_of l s) = s.
Proof.
  revert s; induction l as [|[uid [r t]] l IH]; intros s; [reflexivity|].
  simpl; rewrite bind_run; destruct r as [parts|]; simpl; [|reflexivity].
  rewrite bind_run; specialize (IH s).
  destruct (mapM parts_of l s) as [[e|ys] s1]; simpl in *; congruence.
Qed.

Lemma list_set_spec {A} (l : list A) (i : nat) (v : A) :
  (i < length l)%nat ->
  exists l', list_set l i v = Some l' /\ length l' = length l /\
    forall k, nth_error l' k = if Nat.eqb k i then Some v else nth_error l k.
Proof.
  revert i; induction l as [|x l IH]; intros i Hi; simpl in Hi; [lia|].
  destruct i as [|i]; simpl.
  - exists (v :: l); split; [reflexivity|split; [reflexivity|]].
    intros [|k]; reflexivity.
  - destruct (IH i ltac:(lia)) as [l' [E [Hl Hk]]].
    rewrite E; exists (x :: l'); split; [reflexivity|split; [simpl; congruence|]].
    intros [|k]; simpl; [reflexivity | apply Hk].
Qed.

(** * Facts about the byte-level round trip of [compute_response] *)

Definition is_byte (b : Z) : Prop := 0 <= b < 256.

Lemma le_bytes_length n t : length (le_bytes n t) = n.
Proof. revert t; induction n; intros t; simpl; [reflexivity | now rewrite IHn]. Qed.

Lemma le_bytes_bytes n t : Forall is_byte (le_bytes n t).
Proof.
  revert t; induction n; intros t; simpl; constructor; [|apply IHn].
  unfold is_byte; apply Z.mod_pos_bound; lia.
Qed.

Lemma from_le_bytes n t : from_bytes_le (le_bytes n t) = t mod 256 ^ Z.of_nat n.
Proof.
  revert t; induction n as [|n IH]; intros t; cbn [le_bytes from_bytes_le].
  - rewrite Z.mod_1_r; reflexivity.
  - rewrite IH, Nat2Z.inj_succ, Z.pow_succ_r by lia.
    rewrite Z.rem_mul_r by lia; reflexivity.
Qed.

Lemma from_bytes_app l1 l2 :
  from_bytes_le (l1 ++ l2) = from_bytes_le l1 + 256 ^ Z.of_nat (length l1) * from_bytes_le l2.
Proof.
  induction l1 as [|b l1 IH]; cbn [app from_bytes_le length]; [lia|].
  rewrite IH, Nat2Z.inj_succ, Z.pow_succ_r by lia; lia.
Qed.

Lemma from_bytes_bound l :
  Forall is_byte l -> 0 <= from_bytes_le l < 256 ^ Z.of_nat (length l).
Proof.
  induction 1 as [|b l Hb _ IH]; cbn [from_bytes_le length]; [simpl; lia|].
  rewrite Nat2Z.inj_succ, Z.pow_succ_r by lia.
  unfold is_byte in Hb; nia.
Qed.

Lemma from_tobytes ws : Forall is_word ws -> from_bytes_le (tobytes ws) = words_value ws.
Proof.
  induction 1 as [|w ws Hw _ IH]; [reflexivity|].
  unfold tobytes; cbn [flat_map]; fold (tobytes ws).
  rewrite from_bytes_app, from_le_bytes, le_bytes_length, IH.
  rewrite Z.mod_small by exact Hw; reflexivity.
Qed.

Lemma frombuffer_aux_spec fuel bs :
  (length bs <= fuel)%nat -> Nat.modulo (length bs) 8 = O -> Forall is_byte bs ->
  exists ws, frombuffer_aux fuel bs = Some ws /\ Forall is_word ws /\
    words_value ws = from_bytes_le bs /\ (8 * length ws = length bs)%nat.
Proof.
  revert bs; induction fuel as [|fuel IH]; intros bs Hf Hm Hb.
  - destruct bs; [|simpl in Hf; lia].
    exists []; repeat split; constructor.
  - destruct bs as [|b0 bs'] eqn:Ebs.
    { exists []; repeat split; constructor. }
    rewrite <- Ebs in *.
    assert (H8 : (8 <= length bs)%nat).
    { destruct (Nat.lt_ge_cases (length bs) 8) as [Hl|Hl]; [|exact Hl].
      rewrite Nat.mod_small in Hm by exact Hl; subst bs; simpl in Hm; discriminate. }
    assert (Hsplit : bs = firstn 8 bs ++ skipn 8 bs) by (symmetry; apply firstn_skipn).
    assert (Hlf : length (firstn 8 bs) = 8%nat) by (rewrite length_firstn; lia).
    assert (Hls : length (skipn 8 bs) = (length bs - 8)%nat) by apply length_skipn.
    destruct (IH (skipn 8 bs)) as [ws [E [Hw [Hv Hl]]]].
    + lia.
    + rewrite Hls.
      replace (length bs) with ((length bs - 8) + 1 * 8)%nat in Hm by lia.
      rewrite Nat.Div0.mod_add in Hm; exact Hm.
    + rewrite Hsplit in Hb; apply Forall_app in Hb; tauto.
    + exists (from_bytes_le (firstn 8 bs) :: ws).
      assert (Hb8 : Forall is_byte (firstn 8 bs))
        by (rewrite Hsplit in Hb; apply Forall_app in Hb; tauto).
      pose proof (from_bytes_bound _ Hb8) as Hbd; rewrite Hlf in Hbd.
      split; [|split; [|split]].
      * assert (Hunf : frombuffer_aux (S fuel) bs =
                  if (length bs <? 8)%nat then None
                  else match frombuffer_aux fuel (skipn 8 bs) with
                       | Some ws => Some (from_bytes_le (firstn 8 bs) :: ws)
                       | None => None
                       end) by (rewrite Ebs; reflexivity).
        rewrite Hunf.
        destruct (Nat.ltb_spec (length bs) 8); [lia|].
        rewrite E; reflexivity.
      * constructor; [unfold is_word, word_mod; exact Hbd | exact Hw].
      * simpl words_value; rewrite Hv.
        rewrite Hsplit at 3; rewrite from_bytes_app, Hlf; reflexivity.
      * simpl length; lia.
Qed.

Lemma rule30_int_nonneg x : 0 <= x -> 0 <= rule30_int x.
Proof.
  intros Hx; unfold rule30_int.
  apply Z.lxor_nonneg; split; intros _; [|exact Hx].
  apply Z.lor_nonneg; split; apply Z.shiftl_nonneg; exact Hx.
Qed.

Lemma num_bytes_fits t :
  0 <= t -> t < 256 ^ compute_num_bytes t /\ compute_num_bytes t mod 8 = 0 /\
    0 <= compute_num_bytes t.
Proof.
  intros Ht; unfold compute_num_bytes.
  set (bl := bit_length t).
  assert (Hbl : 0 <= bl /\ t < 2 ^ bl).
  { unfold bl, bit_length.
    destruct (Z.eqb_spec t 0) as [->|Hne]; [simpl; lia|].
    rewrite Z.abs_eq by lia.
    pose proof (Z.log2_nonneg t).
    pose proof (Z.log2_spec t ltac:(lia)); rewrite <- Z.add_1_r in *; lia. }
  set (nb := (bl + 7) / 8).
  pose proof (Z.div_mod (bl + 7) 8 ltac:(lia)) as Hd.
  pose proof (Z.mod_pos_bound (bl + 7) 8 ltac:(lia)) as Hr.
  fold nb in Hd.
  pose proof (Z.div_mod nb 8 ltac:(lia)) as Hd2.
  pose proof (Z.mod_pos_bound nb 8 ltac:(lia)) as Hr2.
  assert (Hnb : 0 <= nb) by lia.
  assert (E : nb + (8 - nb mod 8) = 8 * (nb / 8 + 1)) by lia.
  rewrite E.
  split; [|split; [rewrite Z.mul_comm, Z.mod_mul by lia; reflexivity | lia]].
  apply Z.lt_le_trans with (2 ^ bl); [exact (proj2 Hbl)|].
  replace 256 with (2 ^ 8) by reflexivity.
  rewrite <- Z.pow_mul_r by lia.
  apply Z.pow_le_mono_r; lia.
Qed.

(** [compute_response] on a row of 64-bit words: the words it returns are
    64-bit words whose value is the unbounded transform of the input's
    value. *)
Lemma compute_response_value ws :
  Forall is_word ws ->
  exists out, compute_response ws = Some out /\ Forall is_word out /\
    words_value out = rule30_int (words_value ws) /\
    Z.of_nat (8 * length out) = compute_num_bytes (rule30_int (words_value ws)).
Proof.
  intros Hw; unfold compute_response.
  rewrite from_tobytes by exact Hw.
  set (t := rule30_int (words_value ws)).
  assert (Ht : 0 <= t).
  { apply rule30_int_nonneg.
    clear t; induction Hw as [|w ws' Hw' _ IH]; cbn [words_value]; [lia|].
    assert (0 < word_mod) by reflexivity; unfold is_word in *; nia. }
  destruct (num_bytes_fits t Ht) as [Hfit [Hm8 Hnn]].
  unfold to_bytes; rewrite (proj2 (Z.ltb_lt _ _) Hfit).
  set (n := compute_num_bytes t) in *.
  destruct (frombuffer_aux_spec (length (le_bytes (Z.to_nat n) t)) (le_bytes (Z.to_nat n) t))
    as [out [E [Hout [Hv Hlen]]]].
  - lia.
  - rewrite le_bytes_length.
    apply Nat2Z.inj; rewrite Nat2Z.inj_mod, Z2Nat.id by lia; exact Hm8.
  - apply le_bytes_bytes.
  - exists out; split; [exact E|]; split; [exact Hout|].
    split; [rewrite Hv, from_le_bytes, Z2Nat.id by lia; apply Z.mod_small; lia|].
    rewrite Hlen, le_bytes_length, Z2Nat.id by lia; reflexivity.
Qed.

(** * Facts relating a chunk's transform to the whole row's *)

Lemma word_mod_pos : 0 < word_mod.
Proof. reflexivity. Qed.

Lemma lt_pow2_of_bits (K t : Z) :
  0 <= K -> 0 <= t -> (forall n, K <= n -> Z.testbit t n = false) -> t < 2 ^ K.
Proof.
  intros HK Ht Hb.
  assert (E : t = t mod 2 ^ K).
  { apply Z.bits_inj'; intros n Hn.
    rewrite Z.testbit_mod_pow2 by lia.
    destruct (Z.ltb_spec n K); simpl; [reflexivity | now apply Hb]. }
  rewrite E; apply Z.mod_pos_bound; lia.
Qed.

Lemma words_value_bound ws :
  Forall is_word ws -> 0 <= words_value ws < 2 ^ (64 * Z.of_nat (length ws)).
Proof.
  induction 1 as [|w ws Hw _ IH]; cbn [words_value length]; [simpl; lia|].
  rewrite Nat2Z.inj_succ, Z.mul_succ_r, Z.pow_add_r by lia.
  unfold is_word in Hw; rewrite word_mod_pow in *; nia.
Qed.





Lemma rule30_bit x n :
  0 <= n ->
  Z.testbit (rule30_int x) n
  = xorb (Z.testbit x n) (Z.testbit x (n - 1) || Z.testbit x (n - 2)).
Proof.
  intros Hn; unfold rule30_int.
  rewrite Z.lxor_spec, Z.lor_spec, !Z.shiftl_spec by lia; reflexivity.
Qed.





Lemma bits_above_bound (v K m : Z) : 0 <= K -> 0 <= v < 2 ^ K -> K <= m -> Z.testbit v m = false.
Proof.
  intros HK Hv Hm.
  rewrite <- (Z.mod_small v (2 ^ K)) by lia.
  apply Z.mod_pow2_bits_high; lia.
Qed.

Lemma rule30_int_bound (v K : Z) :
  0 <= K -> 0 <= v < 2 ^ K -> rule30_int v < 2 ^ (K + 2).
Proof.
  intros HK Hv.
  apply lt_pow2_of_bits; [lia | apply rule30_int_nonneg; lia|].
  intros n Hn; rewrite rule30_bit by lia.
  rewrite !(bits_above_bound v K) by lia; reflexivity.
Qed.

Lemma num_bytes_bound (t L : Z) :
  0 <= L -> 0 <= t < 2 ^ (64 * L + 2) -> compute_num_bytes t <= 8 * (L + 1).
Proof.
  intros HL Ht; unfold compute_num_bytes.
  assert (Hbl : 0 <= bit_length t <= 64 * L + 2).
  { unfold bit_length; destruct (Z.eqb_spec t 0) as [->|Hne]; [lia|].
    rewrite Z.abs_eq by lia.
    pose proof (Z.log2_nonneg t).
    assert (Z.log2 t < 64 * L + 2) by (apply Z.log2_lt_pow2; lia).
    lia. }
  set (bl := bit_length t) in *.
  set (nb := (bl + 7) / 8).
  pose proof (Z.div_mod (bl + 7) 8 ltac:(lia)) as Hd.
  pose proof (Z.mod_pos_bound (bl + 7) 8 ltac:(lia)) as Hr.
  fold nb in Hd.
  pose proof (Z.div_mod nb 8 ltac:(lia)) as Hd2.
  pose proof (Z.mod_pos_bound nb 8 ltac:(lia)) as Hr2.
  lia.
Qed.

(** A worker's answer has at most one word more than its chunk. *)
Lemma compute_response_length ws out :
  Forall is_word ws -> compute_response ws = Some out ->
  (length out <= S (length ws))%nat.
Proof.
  intros Hw E.
  destruct (compute_response_value ws Hw) as [out' [E' [_ [_ Hlen]]]].
  rewrite E in E'; injection E' as <-.
  pose proof (words_value_bound ws Hw) as Hb.
  pose proof (rule30_int_bound (words_value ws) (64 * Z.of_nat (length ws))
                ltac:(lia) Hb) as Hr.
  pose proof (rule30_int_nonneg (words_value ws) ltac:(lia)).
  pose proof (num_bytes_bound (rule30_int (words_value ws)) (Z.of_nat (length ws))
                ltac:(lia) ltac:(lia)) as Hn.
  lia.
Qed.


(** * What the boundary loop leaves in place *)

(** [l'] has the length of [l] and the same words except possibly the
    first and the last one. *)
Definition same_interior (l l' : list Z) : Prop :=
  length l' = length l /\
  forall j, (1 <= j)%nat -> (j + 1 < length l)%nat -> nth_error l' j = nth_error l j.

Lemma same_interior_refl l : same_interior l l.
Proof. split; auto. Qed.

Lemma same_interior_trans l1 l2 l3 :
  same_interior l1 l2 -> same_interior l2 l3 -> same_interior l1 l3.
Proof.
  intros [L12 H12] [L23 H23]; split; [congruence|].
  intros j Hj Hl; rewrite H23, H12 by lia; reflexivity.
Qed.

Lemma set_last_interior l a : l <> [] -> same_interior l (set_last l a).
Proof.
  intros Hne; destruct (exists_last Hne) as [pre [x ->]].
  unfold set_last; rewrite removelast_last.
  split; [rewrite !length_app; reflexivity|].
  intros j _ Hl; rewrite length_app in Hl; simpl in Hl.
  rewrite !nth_error_app1 by lia; reflexivity.
Qed.

Lemma set_first_interior l b : l <> [] -> same_interior l (set_first l b).
Proof.
  intros Hne; destruct l as [|x l]; [contradiction|].
  split; [reflexivity|].
  intros [|j] Hj _; [lia | reflexivity].
Qed.

Lemma last_error_nonempty {A} (l : list A) x : last_error l = Some x -> l <> [].
Proof. intros H ->; discriminate. Qed.

Lemma hd_error_nonempty {A} (l : list A) x : hd_error l = Some x -> l <> [].
Proof. intros H ->; discriminate. Qed.

Lemma normalize_loop_interior rest :
  forall cur outs, normalize_loop cur rest = Some outs ->
  Forall2 same_interior (cur :: rest) outs.
Proof.
  induction rest as [|nxt rest IH]; intros cur outs E; cbn [normalize_loop] in E.
  - injection E as <-; constructor; [apply same_interior_refl | constructor].
  - destruct (last_error cur) as [a|] eqn:Ea; [|discriminate].
    destruct (hd_error nxt) as [b|] eqn:Eb; [|discriminate].
    destruct (normalize_pair a b) as [a' b'].
    destruct (normalize_loop (set_first nxt b') rest) as [outs'|] eqn:E'; [|discriminate].
    injection E as <-.
    specialize (IH _ _ E').
    inversion IH as [|? o ? os Ho Hos]; subst.
    constructor; [apply set_last_interior; eapply last_error_nonempty; eauto|].
    constructor; [|exact Hos].
    eapply same_interior_trans; [|exact Ho].
    apply set_first_interior; eapply hd_error_nonempty; eauto.
Qed.

Lemma boundary_loop_interior outs outs' :
  boundary_loop outs = Some outs' -> Forall2 same_interior outs outs'.
Proof.
  destruct outs as [|c r]; cbn [boundary_loop].
  - intros H; injection H as <-; constructor.
  - apply normalize_loop_interior.
Qed.

Lemma normalize_loop_head (rest : list (list Z)) cur o os :
  normalize_loop cur rest = Some (o :: os) -> o = cur \/ exists x, o = set_last cur x.
Proof.
  destruct rest as [|nxt rest]; cbn [normalize_loop].
  - intros H; injection H as <- _; left; reflexivity.
  - destruct (last_error cur) as [a|]; [|discriminate].
    destruct (hd_error nxt) as [b|]; [|discriminate].
    destruct (normalize_pair a b) as [a' b'].
    destruct (normalize_loop (set_first nxt b') rest); [|discriminate].
    intros H; injection H as <- _; right; eexists; reflexivity.
Qed.





(** * Claims *)

(** ** Boundary reconciliation *)

(** C5: on 64-bit words, [normalize_pair] is exactly the spec's seven-step
    procedure with [W = 64]: [carry = a & 1], [a' = a >> 1],
    [b' = (carry << 63) | b], [a'' = WordTransform(a')],
    [b'' = WordTransform(b')], [msb] the top bit of [b''], result
    [((a'' << 1) | msb, b''] with its top bit cleared[)]; step 4 applies
    WordTransform to whatever words it is given, here the workers' already
    transformed boundary words (see [normalize_loop]). *)
Theorem normalize_pair_seven_steps (a b : Z) :
  is_word a -> is_word b -> normalize_pair a b = normalize_pair_spec a b.
Proof.
  intros Ha Hb; unfold normalize_pair, normalize_pair_spec.
  rewrite carry_shift.
  assert (Hb' : is_word (Z.lor (Z.shiftl (Z.land a 1) (W - 1)) b)).
  { rewrite <- carry_shift; apply lor_is_word; [apply mod_is_word | exact Hb]. }
  rewrite (rule_30_word_transform (Z.shiftr a 1))
    by (apply shiftr_is_word; [exact Ha | lia]).
  rewrite (rule_30_word_transform _ Hb').
  rewrite (shiftr_63_top _ (word_transform_is_word _)).
  rewrite ones_63, normalize_pair_high by apply word_transform_is_word.
  rewrite normalize_pair_low; reflexivity.
Qed.

Lemma normalize_pair_seven_steps_witness :
  (is_word 7 /\ is_word 0) /\ normalize_pair 7 0 = normalize_pair_spec 7 0.
Proof.
  assert (H : is_word 7 /\ is_word 0) by (unfold is_word, word_mod; lia).
  split; [exact H | apply normalize_pair_seven_steps; apply H].
Defined.

(** C8: the reconciliation is not idempotent: applying [normalize_pair]
    twice to one boundary differs from applying it once. *)
Theorem normalize_pair_not_idempotent :
  exists a b, is_word a /\ is_word b /\
    (let '(a1, b1) := normalize_pair a b in normalize_pair a1 b1) <> normalize_pair a b.
Proof.
  exists 7, 0; split; [|split]; [unfold is_word, word_mod; lia ..|].
  vm_compute; congruence.
Qed.

(** C2 (the code fails it): the boundary loop rewrites every adjacent pair,
    but [normalize_response_data] then returns only [outputs[i]] with
    [i = len(outputs) - 2], and [outputs[-1]] only when [i <> 0]: for two
    chunks it drops the second one, for three chunks the first one. *)
Theorem normalize_response_data_drops_chunks :
  normalize_loop [1] [[2]] = Some [[1]; [14]] /\
  normalize_response_data [[1]; [2]] = Some [1] /\
  normalize_loop [1] [[2]; [3]] = Some [[1]; [50]; [13]] /\
  normalize_response_data [[1]; [2]; [3]] = Some [50; 13].
Proof. vm_compute; repeat split. Qed.

(** ** Partitioning *)

(** C3 (the code fails it): with [chunk_size = floor(L / n)] every chunk,
    the last one included, takes [chunk_size] words from the shared
    iterator, so the [L mod n] trailing words are never dispatched: for the
    row [1; 2; 3] and two workers the chunks are [1] and [2]. *)
Theorem partition_drops_remainder :
  partition [1; 2; 3] [0; 1]%nat = [(0%nat, [1]); (1%nat, [2])] /\
  concat (map snd (partition [1; 2; 3] [0; 1]%nat)) <> [1; 2; 3].
Proof. split; [reflexivity | vm_compute; congruence]. Qed.

(** ** Initial state *)

(** C9: without a saved state file, [__init__] leaves [step = 1],
    [current_row = [1]] and [center_column = [1]], and [load_state] changes
    nothing when the file is absent. *)
Theorem init_without_state_file (nodes : list String.string) :
  step (validator_init nodes None) = 1 /\
  current_row (validator_init nodes None) = [1] /\
  center_column (validator_init nodes None) = [1] /\
  (forall s, load_state None s = s).
Proof. repeat split. Qed.

(** ** Weights *)







(** ** Tracking the center column *)

Lemma last_error_some {A} (l : list A) (x : A) :
  last_error l = Some x -> exists pre, l = pre ++ [x].
Proof.
  unfold last_error; intros H.
  destruct (rev l) as [|y r] eqn:E; [discriminate|].
  injection H as ->.
  exists (rev r); rewrite <- (rev_involutive l), E; reflexivity.
Qed.

Lemma track_center_spec (g : Z) (row cc cc' : list Z) :
  track_center g row cc = Some cc' ->
  exists pre last, cc = pre ++ [last] /\
    cc' = pre ++ [Z.lor last
                    (Z.shiftl (Z.shiftr (nth (Z.to_nat (g / 64)) row 0) (g mod 64))
                       (g mod 64) mod word_mod)].
Proof.
  unfold track_center.
  destruct (nth_error row (Z.to_nat (g / 64))) as [part|] eqn:Ep; [|discriminate].
  destruct (last_error cc) as [last|] eqn:El; [|discriminate].
  intros H; injection H as <-.
  destruct (last_error_some cc last El) as [pre ->].
  exists pre, last; split; [reflexivity|].
  unfold set_last; rewrite removelast_last.
  rewrite (nth_error_nth row _ 0 Ep); reflexivity.
Qed.

(** C7: in a generation that completes, with [g] the generation counter
    before it and [R] the reconciled row, only the last word of
    [center_column] changes: it becomes its old value OR-ed with
    [R[g div 64] >> (g mod 64) << (g mod 64)]; the other words and the
    length stay as they were. *)
Theorem do_step_center_column
    (gather : list (nat * list Z) -> list (option (list Z) * Q)) (s s' : Validator) :
  do_step_dispatch gather s = (inr tt, s') ->
  exists pre last,
    center_column s = pre ++ [last] /\
    center_column s' =
      pre ++ [Z.lor last
                (Z.shiftl (Z.shiftr (nth (Z.to_nat (step s / 64)) (current_row s') 0)
                             (step s mod 64))
                   (step s mod 64) mod word_mod)].
Proof.
  unfold do_step_dispatch; cbv [bind get put ret lift_opt throw].
  destruct (valid_miners s) as [|uid uids] eqn:Hv; [discriminate|].
  set (responses := combine (uid :: uids) (gather (partition (current_row s) (uid :: uids)))).
  pose proof (forM_score_frame responses s) as F1.
  destruct (forM_ score_one responses s) as [[e|[]] s1]; [discriminate|].
  simpl in F1.
  pose proof (mapM_parts_state responses s1) as F2.
  destruct (mapM parts_of responses s1) as [[e|data] s2]; [discriminate|].
  simpl in F2; subst s2.
  destruct (normalize_response_data data) as [row|]; [|discriminate].
  destruct (track_center (step (set_current_row s1 row)) (current_row (set_current_row s1 row))
              (center_column (set_current_row s1 row))) as [cc|] eqn:Ht; [|discriminate].
  intros H; injection H as <-; simpl in *.
  destruct F1 as [Hs [_ [Hc _]]].
  rewrite Hs, Hc in Ht.
  exact (track_center_spec _ _ _ _ Ht).
Qed.

Definition st_one : Validator := mkValidator 1 [1] [1] [0%Q] [0%nat] [].

Definition gather_one (chunks : list (nat * list Z)) : list (option (list Z) * Q) :=
  map (fun c => (compute_response (snd c), 1%Q)) chunks.

Lemma do_step_center_column_witness :
  do_step_dispatch gather_one st_one = (inr tt, mkValidator 2 [7] [7] [1%Q] [0%nat] []) /\
  exists pre last,
    center_column st_one = pre ++ [last] /\
    center_column (mkValidator 2 [7] [7] [1%Q] [0%nat] []) =
      pre ++ [Z.lor last
                (Z.shiftl (Z.shiftr (nth (Z.to_nat (step st_one / 64))
                                        (current_row (mkValidator 2 [7] [7] [1%Q] [0%nat] [])) 0)
                             (step st_one mod 64))
                   (step st_one mod 64) mod word_mod)].
Proof.
  assert (H : do_step_dispatch gather_one st_one
              = (inr tt, mkValidator 2 [7] [7] [1%Q] [0%nat] [])) by (vm_compute; reflexivity).
  split; [exact H | exact (do_step_center_column gather_one st_one _ H)].
Defined.

(** ** A generation in which no worker answers *)

Lemma forM_score_none (uids : list nat) (resps : list (option (list Z) * Q))
    (s : Validator) :
  length resps = length uids ->
  Forall (fun r => fst r = None) resps ->
  Forall (fun uid => (uid < length (scores s))%nat) uids ->
  exists s1, forM_ score_one (combine uids resps) s = (inr tt, s1) /\
    same_evolution s s1 /\ length (scores s1) = length (scores s) /\
    forall k, nth_error (scores s1) k =
      if existsb (Nat.eqb k) uids then Some 0%Q else nth_error (scores s) k.
Proof.
  revert resps s; induction uids as [|u us IH]; intros resps s Hlen Hnone Hin.
  - destruct resps; [|discriminate].
    exists s; split; [reflexivity|].
    split; [apply same_evolution_refl | split; [reflexivity|]]; reflexivity.
  - destruct resps as [|[r t] rs]; [discriminate|].
    inversion Hnone as [|? ? Hr Hrs]; simpl in Hr; subst r.
    inversion Hin as [|? ? Hu Hus]; subst.
    destruct (list_set_spec (scores s) u 0%Q Hu) as [l' [Hset [Hlen' Hk]]].
    set (s0 := set_scores s l').
    assert (Hus' : Forall (fun uid => (uid < length (scores s0))%nat) us)
      by (simpl; rewrite Hlen'; exact Hus).
    destruct (IH rs s0 ltac:(simpl in Hlen; lia) Hrs Hus') as [s1 [E1 [F1 [L1 K1]]]].
    exists s1; cbn [combine forM_].
    rewrite bind_run.
    assert (E0 : score_one (u, (None, t)) s = (inr tt, s0))
      by (cbv [score_one bind get ret put lift_opt throw]; rewrite Hset; reflexivity).
    rewrite E0, E1; split; [reflexivity|].
    split; [|split].
    + eapply same_evolution_trans; [|exact F1]; repeat split.
    + rewrite L1; simpl; exact Hlen'.
    + intros k; rewrite K1; simpl; rewrite Hk.
      destruct (Nat.eqb k u), (existsb (Nat.eqb k) us); reflexivity.
Qed.

(** C6, as the code does it: when no worker answers, [do_step] zeroes the
    score of every dispatched worker before it fails on [None.parts]
    ([AttributeError]); [step], [current_row] and [center_column] are
    unchanged and [run] swallows the exception and starts the next
    [do_step], which begins with the sync check. *)
Theorem do_step_no_response
    (gather : list (nat * list Z) -> list (option (list Z) * Q)) (s : Validator) :
  valid_miners s <> [] ->
  length (gather (partition (current_row s) (valid_miners s))) = length (valid_miners s) ->
  Forall (fun r => fst r = None) (gather (partition (current_row s) (valid_miners s))) ->
  Forall (fun uid => (uid < length (scores s))%nat) (valid_miners s) ->
  exists s',
    do_step_dispatch gather s = (inl AttributeError, s') /\
    run_iteration gather s = (None, s') /\
    step s' = step s /\ current_row s' = current_row s /\
    center_column s' = center_column s /\
    forall k, nth_error (scores s') k =
      if existsb (Nat.eqb k) (valid_miners s) then Some 0%Q else nth_error (scores s) k.
Proof.
  intros Hne Hlen Hnone Hin.
  destruct (forM_score_none _ _ s Hlen Hnone Hin) as [s1 [E1 [[Hs [Hr [Hc _]]] [_ K1]]]].
  exists s1.
  assert (E : do_step_dispatch gather s = (inl AttributeError, s1)).
  { unfold do_step_dispatch; rewrite bind_run; simpl.
    destruct (valid_miners s) as [|u us] eqn:Hv; [contradiction|].
    rewrite bind_run, E1, bind_run.
    destruct (gather (partition (current_row s) (u :: us))) as [|[r t] rs] eqn:Hg;
      [discriminate|].
    inversion Hnone as [|? ? Hr0 _]; simpl in Hr0; subst r.
    reflexivity. }
  split; [exact E|].
  split; [unfold run_iteration; rewrite E; reflexivity|].
  repeat split; assumption.
Qed.

Definition st_scored : Validator := mkValidator 1 [1] [1] [1%Q] [0%nat] [].

Definition gather_none (chunks : list (nat * list Z)) : list (option (list Z) * Q) :=
  map (fun _ => (None, 1%Q)) chunks.

Lemma do_step_no_response_witness :
  (valid_miners st_scored <> [] /\
   length (gather_none (partition (current_row st_scored) (valid_miners st_scored)))
     = length (valid_miners st_scored) /\
   Forall (fun r => fst r = None)
     (gather_none (partition (current_row st_scored) (valid_miners st_scored))) /\
   Forall (fun uid => (uid < length (scores st_scored))%nat) (valid_miners st_scored)) /\
  exists s',
    do_step_dispatch gather_none st_scored = (inl AttributeError, s') /\
    run_iteration gather_none st_scored = (None, s') /\
    step s' = step st_scored /\ current_row s' = current_row st_scored /\
    center_column s' = center_column st_scored /\
    forall k, nth_error (scores s') k =
      if existsb (Nat.eqb k) (valid_miners st_scored) then Some 0%Q
      else nth_error (scores st_scored) k.
Proof.
  assert (H1 : valid_miners st_scored <> []) by discriminate.
  assert (H2 : length (gather_none (partition (current_row st_scored) (valid_miners st_scored)))
               = length (valid_miners st_scored)) by reflexivity.
  assert (H3 : Forall (fun r => fst r = None)
                 (gather_none (partition (current_row st_scored) (valid_miners st_scored))))
    by (simpl; repeat constructor).
  assert (H4 : Forall (fun uid => (uid < length (scores st_scored))%nat)
                 (valid_miners st_scored)) by (simpl; repeat constructor).
  split; [split; [exact H1 | split; [exact H2 | split; [exact H3 | exact H4]]]|].
  exact (do_step_no_response gather_none st_scored H1 H2 H3 H4).
Defined.

(** C6 as stated fails: a generation in which the only worker does not
    answer changes that worker's score from [1] to [0]. *)
Lemma do_step_no_response_mutates_scores :
  Forall (fun r => fst r = None)
    (gather_none (partition (current_row st_scored) (valid_miners st_scored))) /\
  scores (snd (do_step_dispatch gather_none st_scored)) = [0%Q] /\
  scores (snd (do_step_dispatch gather_none st_scored)) <> scores st_scored.
Proof.
  split; [simpl; repeat constructor|].
  split; [reflexivity|].
  vm_compute; intros H; injection H as H; discriminate.
Qed.

(** ** The worker's transform *)

(** C4, as the code does it: on a row of 64-bit words [compute_response]
    returns 64-bit words whose concatenated value is
    [x XOR ((x << 1) | (x << 2))] of the input's value with nothing
    truncated; how many words it returns follows the bit length of that
    result, not the input length. *)
Theorem compute_response_untruncated (ws : list Z) :
  Forall is_word ws ->
  exists out, compute_response ws = Some out /\ Forall is_word out /\
    words_value out = rule30_int (words_value ws).
Proof.
  intros Hw; destruct (compute_response_value ws Hw) as [out [E [Ho [Hv _]]]].
  exists out; auto.
Qed.

Lemma compute_response_untruncated_witness :
  Forall is_word [1; 0] /\
  exists out, compute_response [1; 0] = Some out /\ Forall is_word out /\
    words_value out = rule30_int (words_value [1; 0]).
Proof.
  assert (H : Forall is_word [1; 0])
    by (repeat constructor; unfold is_word, word_mod; lia).
  split; [exact H | exact (compute_response_untruncated [1; 0] H)].
Defined.

(** C4 as stated fails: the two-word input [[1; 0]] gives the single word
    [[7]], and [[2^63]] gives two words, the overflow [3] kept in the second
    one instead of being cut off at 64 bits. *)
Lemma compute_response_length_differs :
  compute_response [1; 0] = Some [7] /\
  compute_response [2 ^ 63] = Some [2 ^ 63; 3] /\
  length [7] <> length [1; 0] /\
  words_value [2 ^ 63; 3] <> rule30_int (words_value [2 ^ 63]) mod 2 ^ 64.
Proof.
  split; [vm_compute; reflexivity|].
  split; [vm_compute; reflexivity|].
  split; [discriminate | vm_compute; discriminate].
Qed.

(** ** Chunked generation against the whole-row transform *)





(** * Further properties of the code *)

(** ** Partitioning and the worker's answer *)

Lemma firstn_add_skipn {A} (n m : nat) (l : list A) :
  firstn (n + m) l = firstn n l ++ firstn m (skipn n l).
Proof.
  revert l; induction n as [|n IH]; intros l; [reflexivity|].
  destruct l as [|x l]; cbn.
  - destruct m; reflexivity.
  - rewrite IH; reflexivity.
Qed.

Lemma take_chunks_shape (it : list Z) (size : nat) (uids : list nat) :
  (size * length uids <= length it)%nat ->
  map fst (take_chunks it size uids) = uids /\
  Forall (fun c => length (snd c) = size) (take_chunks it size uids) /\
  concat (map snd (take_chunks it size uids)) = firstn (size * length uids) it.
Proof.
  revert it; induction uids as [|u uids IH]; intros it Hlen; cbn.
  - rewrite Nat.mul_0_r; auto.
  - cbn [length] in Hlen.
    destruct (IH (skipn size it)) as (H1 & H2 & H3).
    { rewrite length_skipn; lia. }
    rewrite H1; split; [reflexivity|]; split.
    + constructor; [cbn; rewrite length_firstn; lia | exact H2].
    + rewrite H3, Nat.mul_succ_r, Nat.add_comm, firstn_add_skipn; reflexivity.
Qed.

(** [do_step]'s partition, for any row and any non-empty list of workers:
    every worker gets one chunk, in the order of [valid_miners]; every chunk
    has [len(row) div n] words; the chunks together are the row's prefix of
    [n * (len(row) div n)] words; and the [len(row) mod n] words after it
    are sent to nobody. *)
Theorem partition_prefix (row : list Z) (uids : list nat) :
  uids <> [] ->
  let chunks := partition row uids in
  map fst chunks = uids /\
  Forall (fun c => length (snd c) = Nat.div (length row) (length uids)) chunks /\
  concat (map snd chunks) =
    firstn (length uids * Nat.div (length row) (length uids)) row /\
  length (skipn (length uids * Nat.div (length row) (length uids)) row) =
    Nat.modulo (length row) (length uids).
Proof.
  intros Hu chunks.
  assert (Hn : length uids <> 0%nat) by (destruct uids; [congruence | discriminate]).
  assert (Hle : (Nat.div (length row) (length uids) * length uids <= length row)%nat).
  { rewrite Nat.mul_comm; apply Nat.Div0.mul_div_le. }
  destruct (take_chunks_shape row (Nat.div (length row) (length uids)) uids Hle)
    as (H1 & H2 & H3).
  unfold chunks, partition, chunk_size_of.
  split; [exact H1|]; split; [exact H2|]; split.
  - rewrite H3, Nat.mul_comm; reflexivity.
  - rewrite length_skipn.
    pose proof (Nat.div_mod (length row) (length uids) Hn); lia.
Qed.



Lemma compute_num_bytes_words (t : Z) :
  0 <= bit_length t ->
  compute_num_bytes t = 8 * ((bit_length t + 7) / 64 + 1).
Proof.
  intros Hb; unfold compute_num_bytes.
  set (nb := (bit_length t + 7) / 8).
  replace ((bit_length t + 7) / 64) with (nb / 8)
    by (unfold nb; rewrite Z.div_div by lia; reflexivity).
  pose proof (Z.div_mod nb 8 ltac:(lia)). lia.
Qed.

Lemma bit_length_nonneg (t : Z) : 0 <= bit_length t.
Proof.
  unfold bit_length; destruct (t =? 0); [lia|].
  pose proof (Z.log2_nonneg (Z.abs t)); lia.
Qed.

(** [compute_response] returns [(bit_length(t) + 7) div 64 + 1] words,
    where [t] is the transformed integer: one word more than its bits need
    whenever that bit length modulo [64] is [0] or at least [57]. *)
Theorem compute_response_word_count (ws out : list Z) :
  Forall is_word ws -> compute_response ws = Some out ->
  Z.of_nat (length out) = (bit_length (rule30_int (words_value ws)) + 7) / 64 + 1.
Proof.
  intros Hw E.
  destruct (compute_response_value ws Hw) as [out' [E' [_ [_ Hlen]]]].
  rewrite E in E'; injection E' as <-.
  rewrite compute_num_bytes_words in Hlen by apply bit_length_nonneg.
  lia.
Qed.

(** On any chunk of 64-bit words, including the empty one,
    [compute_response] succeeds with 64-bit words only, and returns at least
    one word and at most one word more than it was given. *)
Theorem compute_response_word_bounds (ws : list Z) :
  Forall is_word ws ->
  exists out, compute_response ws = Some out /\ Forall is_word out /\
    (1 <= length out <= S (length ws))%nat.
Proof.
  intros Hw.
  destruct (compute_response_value ws Hw) as [out [E [Hout [_ Hlen]]]].
  exists out; split; [exact E|]; split; [exact Hout|]; split.
  - rewrite compute_num_bytes_words in Hlen by apply bit_length_nonneg.
    pose proof (bit_length_nonneg (rule30_int (words_value ws))).
    assert (0 <= (bit_length (rule30_int (words_value ws)) + 7) / 64)
      by (apply Z.div_pos; lia).
    lia.
  - exact (compute_response_length ws out Hw E).
Qed.

(** The fix-up of one boundary always yields a 64-bit left word and a right
    word whose top bit is clear. *)
Theorem normalize_pair_ranges (a b : Z) :
  is_word b ->
  is_word (fst (normalize_pair a b)) /\ 0 <= snd (normalize_pair a b) < 2 ^ 63.
Proof.
  intros Hb; unfold normalize_pair; cbn [fst snd].
  set (b'' := rule_30 (Z.lor (Z.shiftl (Z.land a 1) 63 mod word_mod) b)).
  assert (Hw : is_word b'')
    by (apply rule_30_is_word, lor_is_word; [apply mod_is_word | exact Hb]).
  split.
  - apply lor_is_word; [apply mod_is_word | apply shiftr_is_word; [exact Hw | lia]].
  - rewrite ones_63, Z.land_ones by lia.
    apply Z.mod_pos_bound; lia.
Qed.

(** ** What [normalize_response_data] returns *)

Lemma normalize_loop_none (rest : list (list Z)) :
  forall cur, normalize_loop cur rest = None <-> rest <> [] /\ (cur = [] \/ In [] rest).
Proof.
  induction rest as [|nxt rest IH]; intros cur; cbn [normalize_loop].
  - split; [intros ?; discriminate | intros [H _]; congruence].
  - destruct (last_error cur) as [a|] eqn:Ea.
    2:{ split; [|intros _; reflexivity]. intros _; split; [intros ?; discriminate|left].
        unfold last_error in Ea; destruct (rev cur) eqn:Er; [|discriminate].
        apply (f_equal (@rev Z)) in Er; rewrite rev_involutive in Er; exact Er. }
    assert (Hc : cur <> []) by (eapply last_error_nonempty; eauto).
    destruct nxt as [|b nxt']; cbn [hd_error].
    { split; [intros _; split; [intros ?; discriminate | right; left; reflexivity] | reflexivity]. }
    destruct (normalize_pair a b) as [a' b'].
    specialize (IH (set_first (b :: nxt') b')).
    destruct (normalize_loop (set_first (b :: nxt') b') rest) as [outs|] eqn:E.
    + split; [intros ?; discriminate|]. intros [_ [H|[H|H]]]; [congruence|discriminate|].
      assert (Hs : Some outs = None); [apply IH|discriminate].
      split; [destruct rest; [contradiction|intros ?; discriminate] | right; exact H].
    + split; [|intros _; reflexivity]. intros _.
      destruct (proj1 IH eq_refl) as [_ [H|H]]; [discriminate|].
      split; [intros ?; discriminate | right; right; exact H].
Qed.

Lemma last_error_last {A} (l : list A) (d : A) : l <> [] -> last_error l = Some (last l d).
Proof.
  intros Hl; destruct (exists_last Hl) as [pre [x ->]].
  unfold last_error; rewrite rev_app_distr, last_last; reflexivity.
Qed.

(** [normalize_response_data] raises [IndexError] exactly when there is no
    chunk at all, or there are two chunks or more and one of them is empty;
    a single chunk, even an empty one, goes through. *)
Theorem normalize_response_data_index_error (outputs : list (list Z)) :
  (normalize_response_data outputs = None <->
   outputs = [] \/ ((2 <= length outputs)%nat /\ In [] outputs)) /\
  (forall c, normalize_response_data [c] = Some c).
Proof.
  split; [|intros c; reflexivity].
  unfold normalize_response_data.
  destruct outputs as [|c [|c2 r]].
  - cbn; split; [intros _; left; reflexivity | intros _; reflexivity].
  - cbn; split; [intros ?; discriminate|]. intros [H|[H _]]; [discriminate | cbn in H; lia].
  - cbn [boundary_loop].
    destruct (normalize_loop c (c2 :: r)) as [outs|] eqn:E.
    + pose proof (normalize_loop_interior _ _ _ E) as HF.
      apply Forall2_length in HF.
      assert (Hnil : ~ In [] (c :: c2 :: r)).
      { intros Hin. assert (Hn : normalize_loop c (c2 :: r) = None).
        { apply normalize_loop_none; split; [intros ?; discriminate|].
          destruct Hin as [H|H]; [left; congruence | right; exact H]. }
        congruence. }
      assert (Hi : (length (c :: c2 :: r) - 2 < length outs)%nat) by (rewrite <- HF; cbn; lia).
      destruct (nth_error outs (length (c :: c2 :: r) - 2)) as [ci|] eqn:Ei.
      2:{ apply nth_error_None in Ei; lia. }
      destruct (Nat.eqb (length (c :: c2 :: r) - 2) 0).
      * split; [intros ?; discriminate|]. intros [H|[_ H]]; [discriminate | contradiction].
      * rewrite (last_error_last outs []) by (intros ->; cbn in HF; discriminate).
        split; [intros ?; discriminate|]. intros [H|[_ H]]; [discriminate | contradiction].
    + split; [intros _|reflexivity]. right; split; [cbn; lia|].
      destruct (proj1 (normalize_loop_none _ _) E) as [_ [H|H]];
        [left; congruence | right; exact H].
Qed.

Lemma last_nth {A} (l : list A) (d : A) : last l d = nth (length l - 1) l d.
Proof.
  induction l as [|x l IH]; [reflexivity|].
  destruct l as [|y l]; [reflexivity|].
  change (last (x :: y :: l) d) with (last (y :: l) d); rewrite IH.
  cbn [length]; replace (S (S (length l)) - 1)%nat with (S (S (length l) - 1)) by lia.
  reflexivity.
Qed.

(** With two chunks or more, the row [normalize_response_data] returns is
    the reconciled chunk [k - 2] alone when [k = 2], and otherwise that chunk
    followed by the reconciled last chunk; its length is the sum of those
    chunks' lengths. *)
Theorem normalize_response_data_last_two (outputs outs' : list (list Z)) :
  boundary_loop outputs = Some outs' -> (2 <= length outputs)%nat ->
  exists row,
    normalize_response_data outputs = Some row /\
    row = nth (length outputs - 2) outs' [] ++
          (if Nat.eqb (length outputs) 2 then [] else last outs' []) /\
    length row = (length (nth (length outputs - 2) outputs []) +
                  (if Nat.eqb (length outputs) 2 then 0 else length (last outputs [])))%nat.
Proof.
  intros E Hk.
  pose proof (boundary_loop_interior _ _ E) as HF.
  pose proof (Forall2_length HF) as HL.
  assert (Hn : forall n, (n < length outputs)%nat ->
            length (nth n outs' []) = length (nth n outputs [])).
  { clear E Hk. revert outs' HF HL. induction outputs as [|o os IH]; intros outs' HF HL n Hn;
      [cbn in Hn; lia|].
    inversion HF as [|? o' ? os' Ho Hos]; subst.
    destruct n as [|n]; cbn; [exact (proj1 Ho)|].
    apply IH; [exact Hos | cbn in HL; lia | cbn in Hn; lia]. }
  assert (Hlast : length (last outs' []) = length (last outputs [])).
  { rewrite !last_nth, HL. apply Hn; lia. }
  unfold normalize_response_data; rewrite E.
  assert (Hk' : (length outputs - 2 < length outs')%nat) by lia.
  rewrite (nth_error_nth' outs' [] Hk').
  destruct (Nat.eqb_spec (length outputs - 2) 0) as [H0|H0];
    destruct (Nat.eqb_spec (length outputs) 2) as [H2|H2]; try lia.
  - eexists; split; [reflexivity|]. rewrite app_nil_r; split; [reflexivity|].
    rewrite Nat.add_0_r; apply Hn; lia.
  - rewrite (last_error_last outs' []) by (intros ->; cbn in HL; lia).
    eexists; split; [reflexivity|]; split; [reflexivity|].
    rewrite length_app, Hlast, Hn by lia; reflexivity.
Qed.

Lemma set_last_hd (l : list Z) x : (2 <= length l)%nat -> hd 0 (set_last l x) = hd 0 l.
Proof. destruct l as [|y [|z t]]; cbn; [lia | lia | reflexivity]. Qed.

Lemma set_last_last (l : list Z) x : last (set_last l x) 0 = x.
Proof. apply last_last. Qed.

Lemma set_first_last (l : list Z) b : (2 <= length l)%nat -> last (set_first l b) 0 = last l 0.
Proof. destruct l as [|y [|z t]]; cbn [length]; [lia | lia | reflexivity]. Qed.

Lemma set_first_length (l : list Z) b : l <> [] -> length (set_first l b) = length l.
Proof. destruct l; [congruence | reflexivity]. Qed.

Lemma last_error_last_eq (l : list Z) a : last_error l = Some a -> last l 0 = a.
Proof. intros H; destruct (last_error_some l a H) as [pre ->]; apply last_last. Qed.

Lemma normalize_loop_pairs (rest : list (list Z)) :
  Forall (fun c => (2 <= length c)%nat) rest ->
  forall cur outs, normalize_loop cur rest = Some outs ->
  forall i c d, nth_error (cur :: rest) i = Some c -> nth_error (cur :: rest) (S i) = Some d ->
  exists c' d', nth_error outs i = Some c' /\ nth_error outs (S i) = Some d' /\
    (last c' 0, hd 0 d') = normalize_pair (last c 0) (hd 0 d).
Proof.
  induction 1 as [|nxt rest Hnxt Hrest IH]; intros cur outs E i c d Ec Ed.
  - destruct i; discriminate.
  - cbn [normalize_loop] in E.
    destruct (last_error cur) as [a|] eqn:Ea; [|discriminate].
    destruct (hd_error nxt) as [b|] eqn:Eb; [|discriminate].
    destruct (normalize_pair a b) as [a' b'] eqn:Ep.
    destruct (normalize_loop (set_first nxt b') rest) as [outs'|] eqn:E'; [|discriminate].
    injection E as <-.
    assert (Hnxt' : (2 <= length (set_first nxt b'))%nat)
      by (rewrite set_first_length by (destruct nxt; [discriminate | cbn in Hnxt; discriminate]); exact Hnxt).
    destruct i as [|i].
    + injection Ec as <-; injection Ed as <-.
      pose proof (Forall2_length (normalize_loop_interior _ _ _ E')) as HL.
      destruct outs' as [|o os]; [cbn in HL; discriminate|].
      exists (set_last cur a'), o; split; [reflexivity|]; split; [reflexivity|].
      rewrite set_last_last, (last_error_last_eq cur a Ea).
      destruct nxt as [|b0 nxt']; [discriminate|]; injection Eb as ->; cbn [hd].
      rewrite Ep.
      destruct (normalize_loop_head _ _ _ _ E') as [->|[x ->]];
        [reflexivity | rewrite set_last_hd by exact Hnxt'; reflexivity].
    + cbn [nth_error] in Ec, Ed.
      destruct (IH (set_first nxt b') outs' E' i
                  (match i with O => set_first nxt b' | _ => c end) d)
        as [c' [d' [H1 [H2 H3]]]].
      { destruct i; [reflexivity | exact Ec]. }
      { exact Ed. }
      exists c', d'; split; [exact H1|]; split; [exact H2|].
      rewrite H3; destruct i; [|reflexivity].
      injection Ec as <-; rewrite set_first_last by exact Hnxt; reflexivity.
Qed.

(** When every chunk has at least two words, each boundary is fixed up
    once from the original words: the last word of reconciled chunk [i] and
    the first word of reconciled chunk [i + 1] are [normalize_pair] of the
    last word of chunk [i] and the first word of chunk [i + 1]. *)
Theorem boundary_loop_pairs (outputs outs' : list (list Z)) :
  Forall (fun c => (2 <= length c)%nat) outputs ->
  boundary_loop outputs = Some outs' ->
  forall i c d, nth_error outputs i = Some c -> nth_error outputs (S i) = Some d ->
  exists c' d', nth_error outs' i = Some c' /\ nth_error outs' (S i) = Some d' /\
    (last c' 0, hd 0 d') = normalize_pair (last c 0) (hd 0 d).
Proof.
  intros Hl E; destruct outputs as [|c0 r]; [intros i c d H; destruct i; discriminate|].
  inversion Hl; subst. exact (normalize_loop_pairs r ltac:(assumption) c0 outs' E).
Qed.

(** With a single worker, the generation's row is exactly that worker's
    [compute_response] answer: no boundary is reconciled. *)
Theorem reconcile_row_single_worker (c : list Z) :
  reconcile_row [c] = compute_response c.
Proof. unfold reconcile_row; cbn [transform_chunks]; destruct (compute_response c); reflexivity. Qed.


(** ** The outcome of [do_step] *)

Definition response_parts (r : nat * (option (list Z) * Q)) : option (list Z) :=
  fst (snd r).

Lemma mapM_parts_some l s data :
  mapM parts_of l s = (inr data, s) -> map response_parts l = map Some data.
Proof.
  revert s data; induction l as [|[uid [r t]] l IH]; intros s data E.
  - cbn in E; injection E as <-; reflexivity.
  - cbn [mapM] in E; rewrite bind_run in E.
    destruct r as [parts|]; cbn in E; [|discriminate].
    rewrite bind_run in E.
    pose proof (mapM_parts_state l s) as Hs.
    destruct (mapM parts_of l s) as [[e|ys] s1] eqn:E1; [discriminate|].
    cbn in Hs; subst s1. injection E as <-.
    cbn; f_equal; apply (IH s); exact E1.
Qed.

Lemma mapM_parts_none l s :
  In None (map response_parts l) -> mapM parts_of l s = (inl AttributeError, s).
Proof.
  revert s; induction l as [|[uid [r t]] l IH]; intros s Hin; [contradiction|].
  cbn [mapM]; rewrite bind_run.
  destruct r as [parts|]; cbn [parts_of lift_opt throw]; [|reflexivity].
  cbn [ret]; rewrite bind_run.
  destruct Hin as [H|H]; [discriminate|].
  rewrite (IH s H); reflexivity.
Qed.

Lemma mapM_parts_error l s e s' :
  mapM parts_of l s = (inl e, s') -> e = AttributeError.
Proof.
  revert s; induction l as [|[uid [r t]] l IH]; intros s E; [discriminate|].
  cbn [mapM] in E; rewrite bind_run in E.
  destruct r as [parts|]; cbn in E; [|congruence].
  rewrite bind_run in E.
  destruct (mapM parts_of l s) as [[e'|ys] s1] eqn:E1; [|discriminate].
  injection E as -> ->; exact (IH s E1).
Qed.

Lemma score_one_error r s e s' :
  score_one r s = (inl e, s') -> e = ZeroDivisionError \/ e = IndexError.
Proof.
  destruct r as [uid [[parts|] t]]; cbv [score_one bind get ret put lift_opt throw].
  - destruct (Qeq_bool t 0); [intros H; injection H; auto|].
    destruct (list_set (scores s) uid (/ t)%Q); intros H; [discriminate | injection H; auto].
  - destruct (list_set (scores s) uid 0%Q); intros H; [discriminate | injection H; auto].
Qed.

Lemma forM_score_error l s e s' :
  forM_ score_one l s = (inl e, s') -> e = ZeroDivisionError \/ e = IndexError.
Proof.
  revert s; induction l as [|r l IH]; intros s E; [discriminate|].
  cbn [forM_] in E; rewrite bind_run in E.
  destruct (score_one r s) as [[e'|[]] s1] eqn:E1.
  - injection E as <- <-; exact (score_one_error r s e' s1 E1).
  - exact (IH s1 E).
Qed.

Lemma score_one_ok r s :
  (fst r < length (scores s))%nat -> Qeq_bool (snd (snd r)) 0 = false ->
  exists s1, score_one r s = (inr tt, s1) /\ same_evolution s s1 /\
    length (scores s1) = length (scores s).
Proof.
  destruct r as [uid [resp t]]; cbn [fst snd]; intros Hu Ht.
  assert (Hv : exists v, (match resp with
                          | None => ret 0%Q
                          | Some _ => if Qeq_bool t 0 then throw ZeroDivisionError
                                      else ret (/ t)%Q end) s = (inr v, s)).
  { destruct resp; [rewrite Ht|]; eexists; reflexivity. }
  destruct Hv as [v Hv].
  destruct (list_set_spec (scores s) uid v Hu) as [l' [Hset [Hlen _]]].
  exists (set_scores s l').
  split; [|split; [repeat split | exact Hlen]].
  unfold score_one; rewrite bind_run; cbn [get]; rewrite bind_run, Hv.
  rewrite bind_run; cbn [lift_opt]; rewrite Hset; reflexivity.
Qed.

Lemma forM_score_ok l s :
  Forall (fun r => (fst r < length (scores s))%nat /\ Qeq_bool (snd (snd r)) 0 = false) l ->
  exists s1, forM_ score_one l s = (inr tt, s1) /\ same_evolution s s1.
Proof.
  revert s; induction l as [|r l IH]; intros s Hl.
  - exists s; split; [reflexivity | apply same_evolution_refl].
  - inversion Hl as [|? ? [Hu Ht] Hl']; subst.
    destruct (score_one_ok r s Hu Ht) as [s0 [E0 [F0 L0]]].
    destruct (IH s0) as [s1 [E1 F1]].
    { eapply Forall_impl; [|exact Hl']. intros x [Hx Hy]; rewrite L0; auto. }
    exists s1; cbn [forM_]; rewrite bind_run, E0, E1.
    split; [reflexivity | eapply same_evolution_trans; eauto].
Qed.

Lemma Forall_combine_r {A B} (P : A * B -> Prop) (l1 : list A) (l2 : list B) :
  Forall (fun x => Forall (fun y => P (x, y)) l2) l1 -> Forall P (combine l1 l2).
Proof.
  revert l2; induction l1 as [|x l1 IH]; intros l2 H; [constructor|].
  destruct l2 as [|y l2]; [constructor|].
  inversion H as [|? ? Hx Hl1]; subst.
  inversion Hx as [|? ? Hy Hl2]; subst.
  constructor; [exact Hy|]. apply IH.
  eapply Forall_impl; [|exact Hl1]. intros a Ha; inversion Ha; assumption.
Qed.

Section DoStepFacts.

Variable gather : list (nat * list Z) -> list (option (list Z) * Q).

(** From the dispatch on, a [do_step] that completes advances [step] by
    one (modulo [2^64]), leaves [valid_miners] as the dispatch found it, and
    stores as [current_row] the [normalize_response_data] of the parts that
    every dispatched worker returned. *)
Theorem do_step_success (s s' : Validator) :
  do_step_dispatch gather s = (inr tt, s') ->
  step s' = (step s + 1) mod word_mod /\ valid_miners s' = valid_miners s /\
  exists data,
    map response_parts
      (combine (valid_miners s) (gather (partition (current_row s) (valid_miners s))))
      = map Some data /\
    normalize_response_data data = Some (current_row s').
Proof.
  unfold do_step_dispatch; rewrite bind_run; cbn [get].
  destruct (valid_miners s) as [|uid uids] eqn:Hv; [discriminate|].
  set (responses := combine (uid :: uids) (gather (partition (current_row s) (uid :: uids)))).
  rewrite bind_run.
  pose proof (forM_score_frame responses s) as F1.
  destruct (forM_ score_one responses s) as [[e|[]] s1]; [discriminate|].
  cbn [snd] in F1.
  rewrite bind_run.
  pose proof (mapM_parts_state responses s1) as F2.
  destruct (mapM parts_of responses s1) as [[e|data] s2] eqn:Em; [discriminate|].
  cbn [snd] in F2; subst s2.
  rewrite bind_run.
  destruct (normalize_response_data data) as [row|] eqn:En; cbn [lift_opt throw ret]; [|discriminate].
  cbv [bind get put ret lift_opt throw].
  destruct (track_center _ _ _) as [cc|]; [|discriminate].
  intros H; injection H as <-; cbn.
  destruct F1 as [Hs [_ [_ Hvm]]].
  rewrite Hs; split; [reflexivity|]; split; [congruence|].
  exists data; split; [exact (mapM_parts_some _ _ _ Em) | exact En].
Qed.

(** An exception raised from the dispatch on leaves [step],
    [center_column] and [valid_miners] as the dispatch found them, and it is
    never [UnrecoverableError]: [run]'s handler logs it and goes on. *)
Theorem do_step_failure_keeps_generation (s s' : Validator) (e : exn) :
  do_step_dispatch gather s = (inl e, s') ->
  step s' = step s /\ center_column s' = center_column s /\
  valid_miners s' = valid_miners s /\ e <> UnrecoverableError.
Proof.
  unfold do_step_dispatch; rewrite bind_run; cbn [get].
  destruct (valid_miners s) as [|uid uids] eqn:Hv.
  { intros H; injection H as <- <-; repeat split; [exact Hv | discriminate]. }
  set (responses := combine (uid :: uids) (gather (partition (current_row s) (uid :: uids)))).
  rewrite bind_run.
  pose proof (forM_score_frame responses s) as F1.
  destruct (forM_ score_one responses s) as [[e1|[]] s1] eqn:Ef; cbn [snd] in F1;
    destruct F1 as [Hs [_ [Hc Hvm]]].
  { intros H; injection H as <- <-.
    repeat split; try congruence.
    destruct (forM_score_error _ _ _ _ Ef) as [-> | ->]; discriminate. }
  rewrite bind_run.
  pose proof (mapM_parts_state responses s1) as F2.
  destruct (mapM parts_of responses s1) as [[e2|data] s2] eqn:Em; cbn [snd] in F2; subst s2.
  { intros H; injection H as <- <-.
    repeat split; try congruence.
    rewrite (mapM_parts_error _ _ _ _ Em); discriminate. }
  rewrite bind_run.
  destruct (normalize_response_data data) as [row|]; cbn [lift_opt throw ret].
  2:{ intros H; injection H as <- <-; repeat split; try congruence; discriminate. }
  cbv [bind get put ret lift_opt throw].
  destruct (track_center _ _ _) as [cc|]; [discriminate|].
  intros H; injection H as <- <-; cbn; repeat split; try congruence; discriminate.
Qed.

(** If one dispatched worker does not answer, the dispatch fails whatever
    the others return; [run]'s handler carries on, and [step],
    [current_row] and [center_column] are unchanged. *)
Theorem do_step_missing_answer (s : Validator) :
  In None (map response_parts
             (combine (valid_miners s) (gather (partition (current_row s) (valid_miners s))))) ->
  exists e s', do_step_dispatch gather s = (inl e, s') /\ run_iteration gather s = (None, s') /\
    step s' = step s /\ current_row s' = current_row s /\ center_column s' = center_column s.
Proof.
  intros Hin.
  assert (E : exists e s', do_step_dispatch gather s = (inl e, s') /\
                same_evolution s s').
  { unfold do_step_dispatch; rewrite bind_run; cbn [get].
    destruct (valid_miners s) as [|uid uids] eqn:Hv.
    { do 2 eexists; split; [reflexivity | apply same_evolution_refl]. }
    rewrite bind_run.
    pose proof (forM_score_frame
                  (combine (uid :: uids) (gather (partition (current_row s) (uid :: uids)))) s) as F1.
    destruct (forM_ score_one _ s) as [[e1|[]] s1]; cbn [snd] in F1.
    { do 2 eexists; split; [reflexivity | exact F1]. }
    rewrite bind_run, (mapM_parts_none _ s1 Hin).
    do 2 eexists; split; [reflexivity | exact F1]. }
  destruct E as [e [s' [E [Hs [Hr [Hc _]]]]]].
  exists e, s'; split; [exact E|]; split.
  - unfold run_iteration; rewrite E.
    destruct (do_step_failure_keeps_generation s s' e E) as [_ [_ [_ Hu]]].
    destruct e; [reflexivity .. | contradiction].
  - repeat split; assumption.
Qed.

(** When every worker answers with a non-zero latency, but the reconciled
    row has no word at index [step div 64], [do_step] raises [IndexError]
    after it has replaced [current_row]: the new row stays, while [step] and
    [center_column] do not move. *)
Theorem do_step_row_replaced_then_index_error (s : Validator) (data : list (list Z)) (row : list Z) :
  valid_miners s <> [] ->
  length (gather (partition (current_row s) (valid_miners s))) = length (valid_miners s) ->
  Forall (fun r => Qeq_bool (snd r) 0 = false) (gather (partition (current_row s) (valid_miners s))) ->
  Forall (fun uid => (uid < length (scores s))%nat) (valid_miners s) ->
  map response_parts
    (combine (valid_miners s) (gather (partition (current_row s) (valid_miners s))))
    = map Some data ->
  normalize_response_data data = Some row ->
  (length row <= Z.to_nat (step s / 64))%nat ->
  exists s', do_step_dispatch gather s = (inl IndexError, s') /\
    current_row s' = row /\ step s' = step s /\ center_column s' = center_column s.
Proof.
  intros Hne Hlen Hlat Hin Hparts Hrow Hshort.
  set (responses := combine (valid_miners s) (gather (partition (current_row s) (valid_miners s)))).
  destruct (forM_score_ok responses s) as [s1 [E1 [Hs [_ [Hc _]]]]].
  { apply Forall_combine_r.
    eapply Forall_impl; [|exact Hin]; intros uid Hu; cbn [fst].
    eapply Forall_impl; [|exact Hlat]; intros r Hr; split; assumption. }
  assert (Em : mapM parts_of responses s1 = (inr data, s1)).
  { fold responses in Hparts. clear -Hparts.
    revert data Hparts; induction responses as [|[uid [r t]] l IH]; intros data Hp.
    - destruct data; [reflexivity | discriminate].
    - destruct data as [|d data]; [discriminate|].
      cbn in Hp; injection Hp as -> Hp.
      cbn [mapM]; rewrite bind_run; cbn [parts_of lift_opt ret]; rewrite bind_run, (IH data Hp); reflexivity. }
  exists (set_current_row s1 row).
  split; [|split; [reflexivity | split; assumption]].
  unfold do_step_dispatch; rewrite bind_run; cbn [get].
  destruct (valid_miners s) as [|uid uids] eqn:Hv; [contradiction|].
  fold responses; rewrite bind_run, E1, bind_run, Em, bind_run, Hrow.
  cbv [bind get put ret lift_opt throw track_center]; cbn [step current_row center_column set_current_row].
  rewrite Hs.
  destruct (nth_error_None row (Z.to_nat (step s / 64))) as [_ Hn].
  rewrite (Hn Hshort); reflexivity.
Qed.

End DoStepFacts.


(** ** [nodes_list] and the membership update of [sync] *)

Lemma list_set_none {A} (l : list A) (i : nat) (v : A) :
  (length l <= i)%nat -> list_set l i v = None.
Proof.
  revert i; induction l as [|x l IH]; intros i Hi; [reflexivity|].
  destruct i as [|i]; cbn in Hi; [lia|]. cbn; rewrite IH by lia; reflexivity.
Qed.

Lemma list_set_length {A} (l l' : list A) (i : nat) (v : A) :
  list_set l i v = Some l' -> length l' = length l.
Proof.
  revert i l'; induction l as [|x l IH]; intros i l' E; [discriminate|].
  destruct i as [|i]; cbn in E; [injection E as <-; reflexivity|].
  destruct (list_set l i v) as [l0|] eqn:E0; cbn in E; [|discriminate].
  injection E as <-; cbn; rewrite (IH i l0 E0); reflexivity.
Qed.

Lemma place_nodes_spec (nodes : list Node) :
  forall slots, Forall (fun nd => (node_id nd < length slots)%nat) nodes ->
  exists slots', place_nodes slots nodes = Some slots' /\ length slots' = length slots /\
    forall k, (nth_error slots' k = nth_error slots k /\ ~ In k (map node_id nodes)) \/
              (exists nd, In nd nodes /\ node_id nd = k /\ nth_error slots' k = Some (Some nd)).
Proof.
  induction nodes as [|n ns IH]; intros slots Hr.
  - exists slots; split; [reflexivity|]; split; [reflexivity|]; intros k; left; auto.
  - inversion Hr as [|? ? Hn Hns]; subst.
    destruct (list_set_spec slots (node_id n) (Some n) Hn) as [sl [Hset [Hlen Hk]]].
    destruct (IH sl) as [slots' [E [Hlen' Hk']]].
    { rewrite Hlen; exact Hns. }
    exists slots'; cbn [place_nodes]; rewrite Hset, E.
    split; [reflexivity|]; split; [congruence|]. intros k.
    destruct (Hk' k) as [[H1 H2]|[nd [H1 [H2 H3]]]].
    + rewrite H1, Hk.
      destruct (Nat.eqb_spec k (node_id n)) as [->|Hne].
      * right; exists n; split; [left; reflexivity | split; reflexivity].
      * left; split; [reflexivity|]. intros [H|H]; [congruence | contradiction].
    + right; exists nd; split; [right; exact H1 | split; assumption].
Qed.

Lemma place_nodes_out_of_range (nodes : list Node) :
  forall slots, (exists nd, In nd nodes /\ (length slots <= node_id nd)%nat) ->
  place_nodes slots nodes = None.
Proof.
  induction nodes as [|n ns IH]; intros slots [nd [Hin Hge]]; [contradiction|].
  cbn [place_nodes].
  destruct (list_set slots (node_id n) (Some n)) as [sl|] eqn:E; [|reflexivity].
  destruct Hin as [<-|Hin].
  - rewrite list_set_none in E by exact Hge; discriminate.
  - apply IH; exists nd; split; [exact Hin|]. rewrite (list_set_length _ _ _ _ E); exact Hge.
Qed.

(** When every uid is below the node count, [nodes_list] succeeds with one
    slot per node; slot [k] holds a node whose uid is [k], or stays [None]
    when no node has uid [k]. *)
Theorem nodes_list_slots (nodes : list Node) :
  Forall (fun nd => (node_id nd < length nodes)%nat) nodes ->
  exists slots, nodes_list nodes = Some slots /\ length slots = length nodes /\
    forall k, (k < length nodes)%nat ->
      (nth_error slots k = Some None /\ ~ In k (map node_id nodes)) \/
      (exists nd, In nd nodes /\ node_id nd = k /\ nth_error slots k = Some (Some nd)).
Proof.
  intros Hr.
  destruct (place_nodes_spec nodes (repeat None (length nodes))) as [slots [E [Hl Hk]]].
  { rewrite repeat_length; exact Hr. }
  exists slots; split; [exact E|]; split; [rewrite Hl, repeat_length; reflexivity|].
  intros k Hk0; destruct (Hk k) as [[H1 H2]|H]; [left|right; exact H].
  split; [|exact H2]. rewrite H1, nth_error_repeat by exact Hk0; reflexivity.
Qed.

(** A node whose uid is not below the node count makes [nodes_list] raise
    [IndexError]. *)
Theorem nodes_list_index_error (nodes : list Node) :
  (exists nd, In nd nodes /\ (length nodes <= node_id nd)%nat) -> nodes_list nodes = None.
Proof.
  intros H; apply place_nodes_out_of_range; rewrite repeat_length; exact H.
Qed.

(** The fields that the membership update leaves alone. *)
Definition same_but_scores (s s1 : Validator) : Prop :=
  step s1 = step s /\ current_row s1 = current_row s /\ center_column s1 = center_column s /\
  valid_miners s1 = valid_miners s /\ hotkeys s1 = hotkeys s.

Lemma zero_loop_spec (nodes : list Node) (hks : list String.string) :
  forall u s, (u + length hks <= length (scores s))%nat ->
  exists s1, forM_ (zero_departed nodes) (combine (seq u (length hks)) hks) s = (inr tt, s1) /\
    same_but_scores s s1 /\ length (scores s1) = length (scores s) /\
    (forall k hk, nth_error hks k = Some hk ->
       nth_error (scores s1) (u + k) =
         if registered nodes hk then nth_error (scores s) (u + k) else Some 0%Q) /\
    (forall k, (k < u \/ u + length hks <= k)%nat -> nth_error (scores s1) k = nth_error (scores s) k).
Proof.
  induction hks as [|hk hks IH]; intros u s Hlen.
  - exists s; split; [reflexivity|]; split; [repeat split|]; split; [reflexivity|].
    split; [intros k hk H; destruct k; discriminate | reflexivity].
  - cbn [length seq combine forM_] in *.
    assert (E0 : exists s0, zero_departed nodes (u, hk) s = (inr tt, s0) /\
               same_but_scores s s0 /\ length (scores s0) = length (scores s) /\
               nth_error (scores s0) u =
                 (if registered nodes hk then nth_error (scores s) u else Some 0%Q) /\
               forall k, k <> u -> nth_error (scores s0) k = nth_error (scores s) k).
    { unfold zero_departed; destruct (registered nodes hk).
      - exists s; split; [reflexivity|]; split; [repeat split|]; auto.
      - destruct (list_set_spec (scores s) u 0%Q ltac:(lia)) as [l' [Hset [Hl Hk]]].
        exists (set_scores s l'); split.
        + rewrite bind_run; cbn [get]; rewrite bind_run; cbn [lift_opt]; rewrite Hset; reflexivity.
        + split; [repeat split|]; cbn [scores set_scores]; split; [exact Hl|].
          split; [rewrite Hk, Nat.eqb_refl; reflexivity|].
          intros k Hne; rewrite Hk; apply Nat.eqb_neq in Hne; rewrite Hne; reflexivity. }
    destruct E0 as [s0 [E0 [F0 [L0 [N0 K0]]]]].
    destruct (IH (S u) s0 ltac:(lia)) as [s1 [E1 [F1 [L1 [N1 K1]]]]].
    exists s1; rewrite bind_run, E0, E1; split; [reflexivity|].
    split; [unfold same_but_scores in *; intuition congruence|].
    split; [congruence|]. split.
    + intros [|k] h Hk; cbn [nth_error] in Hk.
      * injection Hk as <-. rewrite Nat.add_0_r, K1 by lia. exact N0.
      * replace (u + S k)%nat with (S u + k)%nat by lia.
        rewrite (N1 k h Hk), K0 by lia; reflexivity.
    + intros k Hk; rewrite K1 by lia; apply K0; lia.
Qed.

Lemma mapM_slot_hotkey (slots : list (option Node)) s :
  ~ In None slots ->
  exists hks, mapM slot_hotkey slots s = (inr hks, s) /\ length hks = length slots /\
    forall k nd, nth_error slots k = Some (Some nd) -> nth_error hks k = Some (node_hotkey nd).
Proof.
  induction slots as [|o slots IH]; intros Hn.
  - exists []; split; [reflexivity|]; split; [reflexivity|]; intros [|k]; discriminate.
  - destruct o as [nd|]; [|exfalso; apply Hn; left; reflexivity].
    destruct IH as [hks [E [L K]]]; [intros H; apply Hn; right; exact H|].
    exists (node_hotkey nd :: hks).
    cbn [mapM]; rewrite bind_run; cbn; rewrite bind_run, E.
    split; [reflexivity|]; split; [cbn; congruence|].
    intros [|k] nd' H; cbn in H |- *; [congruence | exact (K k nd' H)].
Qed.


Lemma resize_scores_spec (sc : list Q) (n_nodes : nat) :
  let R := if negb (Nat.eqb (length sc) n_nodes)
           then resize_scores sc (length sc) n_nodes else sc in
  length R = Nat.max n_nodes (length sc) /\
  (forall k, (k < length sc)%nat -> nth_error R k = nth_error sc k) /\
  (forall k, (length sc <= k < n_nodes)%nat -> nth_error R k = Some 0%Q).
Proof.
  intros R; unfold R, resize_scores; clear R.
  destruct (Nat.eqb_spec (length sc) n_nodes) as [<-|Hne]; cbn [negb].
  - split; [lia|]; split; [reflexivity | intros k Hk; lia].
  - rewrite firstn_all.
    split; [rewrite length_app, length_skipn, repeat_length; lia|].
    split.
    + intros k Hk; rewrite nth_error_app1 by exact Hk; reflexivity.
    + intros k Hk; rewrite nth_error_app2 by lia.
      rewrite nth_error_skipn, nth_error_repeat by lia; reflexivity.
Qed.

Lemma NoDup_map_same {A B} (f : A -> B) (l : list A) (x y : A) :
  NoDup (map f l) -> In x l -> In y l -> f x = f y -> x = y.
Proof.
  induction l as [|a l IH]; intros Hd Hx Hy Hf; [contradiction|].
  inversion Hd as [|? ? Hna Hd']; subst.
  destruct Hx as [<-|Hx], Hy as [<-|Hy]; auto.
  - exfalso; apply Hna; rewrite Hf; apply in_map; exact Hy.
  - exfalso; apply Hna; rewrite <- Hf; apply in_map; exact Hx.
Qed.

Lemma ids_cover (nodes : list Node) k :
  NoDup (map node_id nodes) -> Forall (fun nd => (node_id nd < length nodes)%nat) nodes ->
  (k < length nodes)%nat -> In k (map node_id nodes).
Proof.
  intros Hd Hr Hk.
  assert (Hincl : incl (seq 0 (length nodes)) (map node_id nodes)).
  { apply NoDup_length_incl; [exact Hd | rewrite length_seq, length_map; lia|].
    intros i Hi; apply in_map_iff in Hi; destruct Hi as [nd [<- Hin]].
    apply in_seq; rewrite Forall_forall in Hr; specialize (Hr nd Hin); lia. }
  apply Hincl, in_seq; lia.
Qed.

Lemma sync_members_run (nodes : list Node) (me : String.string) (s : Validator)
    (slots : list (option Node)) :
  registered nodes me = true ->
  length (scores s) = length (hotkeys s) ->
  nodes_list nodes = Some slots ->
  let R := if negb (Nat.eqb (length (hotkeys s)) (length nodes))
           then resize_scores (scores s) (length (hotkeys s)) (length nodes) else scores s in
  exists s_c,
    forM_ (zero_departed nodes) (combine (seq 0 (length (hotkeys s))) (hotkeys s))
      (mkValidator (step s) (current_row s) (center_column s) R [] (hotkeys s)) = (inr tt, s_c) /\
    same_but_scores (mkValidator (step s) (current_row s) (center_column s) R [] (hotkeys s)) s_c /\
    length (scores s_c) = Nat.max (length nodes) (length (hotkeys s)) /\
    (forall k hk, nth_error (hotkeys s) k = Some hk ->
       nth_error (scores s_c) k = if registered nodes hk then nth_error (scores s) k else Some 0%Q) /\
    (forall k, (length (hotkeys s) <= k < length nodes)%nat -> nth_error (scores s_c) k = Some 0%Q) /\
    sync_members nodes me s = (bind (mapM slot_hotkey slots)
                                 (fun hks => st <- get ;; put (set_hotkeys st hks))) s_c.
Proof.
  intros Hreg Hlen Hnl R.
  destruct (resize_scores_spec (scores s) (length nodes)) as [RL [RK RZ]].
  rewrite Hlen in RL, RK, RZ. fold R in RL, RK, RZ.
  set (s_b := mkValidator (step s) (current_row s) (center_column s) R [] (hotkeys s)).
  destruct (zero_loop_spec nodes (hotkeys s) 0 s_b) as [s_c [Ez [Fz [Lz [Nz Kz]]]]].
  { cbn [scores s_b]; rewrite RL; lia. }
  exists s_c; split; [exact Ez|]; split; [exact Fz|].
  cbn [scores s_b] in Lz, Nz, Kz.
  split; [congruence|]. split.
  { intros k hk Hk. rewrite (Nz k hk Hk : nth_error (scores s_c) k = _).
    assert (k < length (hotkeys s))%nat by (apply nth_error_Some; congruence).
    destruct (registered nodes hk); [apply RK; lia | reflexivity]. }
  split.
  { intros k Hk; rewrite Kz by lia; apply RZ; lia. }
  unfold sync_members, check_registered; rewrite Hreg.
  rewrite bind_run; cbn [ret]. rewrite bind_run; cbn [get].
  rewrite bind_run; cbn [put]. rewrite bind_run; cbn [get].
  rewrite bind_run.
  assert (Eb : (if negb (Nat.eqb (length (hotkeys (set_valid_miners s []))) (length nodes))
                then put (set_scores (set_valid_miners s [])
                            (resize_scores (scores (set_valid_miners s []))
                               (length (hotkeys (set_valid_miners s []))) (length nodes)))
                else ret tt) (set_valid_miners s []) = (inr tt, s_b)).
  { unfold s_b, R; cbn [hotkeys scores set_valid_miners].
    destruct (negb _); reflexivity. }
  rewrite Eb, bind_run, Hnl; cbn [lift_opt ret].
  rewrite bind_run; cbn [get]. rewrite bind_run.
  change (hotkeys s_b) with (hotkeys s). rewrite Ez. reflexivity.
Qed.

(** The membership update of [sync], when the uids are [0 .. n-1] and
    [scores] has one entry per known hotkey: [valid_miners] is cleared; the
    new [hotkeys] lists every node's hotkey at its uid; [scores] gets
    [max(n, len(hotkeys))] entries: a departed hotkey's score becomes [0],
    the others keep theirs, and new uids start at [0]. *)
Theorem sync_members_updates (nodes : list Node) (me : String.string) (s : Validator) :
  registered nodes me = true ->
  NoDup (map node_id nodes) ->
  Forall (fun nd => (node_id nd < length nodes)%nat) nodes ->
  length (scores s) = length (hotkeys s) ->
  exists s', sync_members nodes me s = (inr tt, s') /\
    step s' = step s /\ current_row s' = current_row s /\
    center_column s' = center_column s /\ valid_miners s' = [] /\
    length (hotkeys s') = length nodes /\
    (forall nd, In nd nodes -> nth_error (hotkeys s') (node_id nd) = Some (node_hotkey nd)) /\
    length (scores s') = Nat.max (length nodes) (length (hotkeys s)) /\
    (forall k hk, nth_error (hotkeys s) k = Some hk ->
       nth_error (scores s') k = if registered nodes hk then nth_error (scores s) k else Some 0%Q) /\
    (forall k, (length (hotkeys s) <= k < length nodes)%nat -> nth_error (scores s') k = Some 0%Q).
Proof.
  intros Hreg Hd Hr Hlen.
  destruct (nodes_list_slots nodes Hr) as [slots [Enl [Ls Ks]]].
  assert (Hnone : ~ In None slots).
  { intros Hin; destruct (In_nth_error _ _ Hin) as [k Hk].
    assert (Hk' : (k < length nodes)%nat) by (rewrite <- Ls; apply nth_error_Some; congruence).
    destruct (Ks k Hk') as [[_ Hni]|[nd [_ [_ H]]]]; [|congruence].
    exact (Hni (ids_cover nodes k Hd Hr Hk')). }
  destruct (sync_members_run nodes me s slots Hreg Hlen Enl)
    as [s_c [_ [[F1 [F2 [F3 [F4 F5]]]] [Lc [Nc [Zc Ec]]]]]].
  destruct (mapM_slot_hotkey slots s_c Hnone) as [hks [Em [Lh Kh]]].
  exists (set_hotkeys s_c hks).
  split; [rewrite Ec, bind_run, Em; reflexivity|].
  cbn [step current_row center_column valid_miners hotkeys scores set_hotkeys] in *.
  split; [exact F1|]; split; [exact F2|]; split; [exact F3|]; split; [exact F4|].
  split; [congruence|]. split.
  { intros nd Hin. rewrite Forall_forall in Hr.
    destruct (Ks (node_id nd) (Hr nd Hin)) as [[_ Hni]|[nd' [Hin' [Hid Hs]]]].
    - exfalso; apply Hni, in_map, Hin.
    - rewrite (NoDup_map_same node_id nodes nd' nd Hd Hin' Hin Hid) in Hs.
      exact (Kh _ _ Hs). }
  split; [exact Lc|]; split; [exact Nc | exact Zc].
Qed.



(** When the node count drops below the number of known hotkeys, [sync]
    does not shorten [scores]: it keeps one entry per old hotkey while
    [hotkeys] gets one per node.  A later [set_weights] with a positive
    score sum then publishes more weights than node ids. *)
Theorem sync_shrink_weights_mismatch (nodes : list Node) (me : String.string)
    (s s' : Validator) (p : WeightCall) :
  registered nodes me = true ->
  NoDup (map node_id nodes) ->
  Forall (fun nd => (node_id nd < length nodes)%nat) nodes ->
  length (scores s) = length (hotkeys s) ->
  (length nodes < length (hotkeys s))%nat ->
  sync_members nodes me s = (inr tt, s') ->
  Qle_bool (fold_left Qplus (scores s') 0%Q) 0%Q = false ->
  set_weights s' (length nodes) me = inr p ->
  length (hotkeys s') = length nodes /\ length (scores s') = length (hotkeys s) /\
  (length (node_ids p) < length (node_weights p))%nat.
Proof.
  intros Hreg Hd Hr Hlen Hlt Es Hpos Ew.
  destruct (sync_members_updates nodes me s Hreg Hd Hr Hlen)
    as [s1 [E1 [_ [_ [_ [_ [Lh [_ [Ls _]]]]]]]]].
  rewrite Es in E1; injection E1 as <-.
  unfold set_weights in Ew; rewrite Hpos in Ew.
  destruct (index_of me (hotkeys s')); [|discriminate].
  injection Ew as <-; cbn [node_ids node_weights].
  rewrite length_seq, Ls; lia.
Qed.

(** ** [set_weights] and restarting *)

Lemma index_of_some (k : String.string) (l : list String.string) (i : nat) :
  index_of k l = Some i ->
  nth_error l i = Some k /\ forall j, (j < i)%nat -> nth_error l j <> Some k.
Proof.
  revert i; induction l as [|x l IH]; intros i E; [discriminate|].
  cbn [index_of] in E.
  destruct (String.eqb_spec x k) as [->|Hne].
  - injection E as <-; split; [reflexivity | intros j Hj; lia].
  - destruct (index_of k l) as [i'|]; cbn in E; [|discriminate].
    injection E as <-; destruct (IH i' eq_refl) as [H1 H2].
    split; [exact H1|].
    intros [|j] Hj; cbn; [congruence | apply H2; lia].
Qed.

Lemma index_of_none (k : String.string) (l : list String.string) :
  index_of k l = None -> ~ In k l.
Proof.
  induction l as [|x l IH]; intros E; [intros []|].
  cbn [index_of] in E.
  destruct (String.eqb_spec x k) as [->|Hne]; [discriminate|].
  destruct (index_of k l); [discriminate|].
  intros [H|H]; [congruence | exact (IH eq_refl H)].
Qed.

(** [set_weights] raises [ValueError] exactly when the validator's hotkey
    is not in [hotkeys]; otherwise it publishes the node ids
    [0 .. n_nodes - 1] and the first index of the validator's hotkey as its
    own uid. *)
Theorem set_weights_outcome (s : Validator) (n : nat) (me : String.string) :
  match set_weights s n me with
  | inl e => e = ValueError /\ ~ In me (hotkeys s)
  | inr p =>
    node_ids p = seq 0 n /\
    nth_error (hotkeys s) (validator_node_id p) = Some me /\
    forall j, (j < validator_node_id p)%nat -> nth_error (hotkeys s) j <> Some me
  end.
Proof.
  unfold set_weights.
  destruct (index_of me (hotkeys s)) as [i|] eqn:E.
  - destruct (index_of_some _ _ _ E) as [H1 H2]; cbn; auto.
  - split; [reflexivity | exact (index_of_none _ _ E)].
Qed.

(** ** Concrete instances *)

Lemma partition_prefix_witness :
  [7%nat; 9%nat] <> [] /\
  map fst (partition [1; 2; 3; 4; 5] [7%nat; 9%nat]) = [7%nat; 9%nat] /\
  Forall (fun c => length (snd c) = 2%nat) (partition [1; 2; 3; 4; 5] [7%nat; 9%nat]) /\
  concat (map snd (partition [1; 2; 3; 4; 5] [7%nat; 9%nat])) = firstn 4 [1; 2; 3; 4; 5] /\
  length (skipn 4 [1; 2; 3; 4; 5]) = 1%nat.
Proof.
  assert (H : [7%nat; 9%nat] <> []) by discriminate.
  split; [exact H | exact (partition_prefix [1; 2; 3; 4; 5] [7%nat; 9%nat] H)].
Defined.

Lemma compute_response_word_count_witness :
  Forall is_word [2 ^ 57] /\
  compute_response [2 ^ 57] = Some [2 ^ 57 + 2 ^ 58 + 2 ^ 59; 0] /\
  Z.of_nat (length [2 ^ 57 + 2 ^ 58 + 2 ^ 59; 0]) =
    (bit_length (rule30_int (words_value [2 ^ 57])) + 7) / 64 + 1.
Proof.
  assert (H1 : Forall is_word [2 ^ 57]) by (repeat constructor; unfold word_mod; lia).
  assert (H2 : compute_response [2 ^ 57] = Some [2 ^ 57 + 2 ^ 58 + 2 ^ 59; 0])
    by (vm_compute; reflexivity).
  split; [exact H1|]; split; [exact H2|].
  exact (compute_response_word_count [2 ^ 57] _ H1 H2).
Defined.

Lemma compute_response_word_bounds_witness :
  Forall is_word [1; 0] /\
  exists out, compute_response [1; 0] = Some out /\ Forall is_word out /\
    (1 <= length out <= S (length [1; 0]))%nat.
Proof.
  assert (H : Forall is_word [1; 0]) by (repeat constructor; unfold word_mod; lia).
  split; [exact H | exact (compute_response_word_bounds [1; 0] H)].
Defined.

Lemma normalize_pair_ranges_witness :
  is_word (2 ^ 63) /\
  is_word (fst (normalize_pair 1 (2 ^ 63))) /\ 0 <= snd (normalize_pair 1 (2 ^ 63)) < 2 ^ 63.
Proof.
  assert (H : is_word (2 ^ 63)) by (unfold is_word, word_mod; lia).
  split; [exact H | exact (normalize_pair_ranges 1 (2 ^ 63) H)].
Defined.

Definition outputs_example : list (list Z) := [[1; 2]; [3; 4]; [5; 6]].
Definition reconciled_example : list (list Z) := [[1; 14]; [13; 28]; [27; 6]].

Lemma normalize_response_data_last_two_witness :
  boundary_loop outputs_example = Some reconciled_example /\
  (2 <= length outputs_example)%nat /\
  exists row,
    normalize_response_data outputs_example = Some row /\
    row = nth (length outputs_example - 2) reconciled_example [] ++
          (if Nat.eqb (length outputs_example) 2 then [] else last reconciled_example []) /\
    length row = (length (nth (length outputs_example - 2) outputs_example []) +
                  (if Nat.eqb (length outputs_example) 2 then 0
                   else length (last outputs_example [])))%nat.
Proof.
  assert (H1 : boundary_loop outputs_example = Some reconciled_example)
    by (vm_compute; reflexivity).
  assert (H2 : (2 <= length outputs_example)%nat) by (cbn; lia).
  split; [exact H1|]; split; [exact H2|].
  exact (normalize_response_data_last_two outputs_example reconciled_example H1 H2).
Defined.

Lemma boundary_loop_pairs_witness :
  Forall (fun c => (2 <= length c)%nat) outputs_example /\
  boundary_loop outputs_example = Some reconciled_example /\
  nth_error outputs_example 1 = Some [3; 4] /\ nth_error outputs_example 2 = Some [5; 6] /\
  exists c' d', nth_error reconciled_example 1 = Some c' /\
    nth_error reconciled_example 2 = Some d' /\
    (last c' 0, hd 0 d') = normalize_pair (last [3; 4] 0) (hd 0 [5; 6]).
Proof.
  assert (H0 : Forall (fun c => (2 <= length c)%nat) outputs_example)
    by (repeat constructor; cbn; lia).
  assert (H1 : boundary_loop outputs_example = Some reconciled_example)
    by (vm_compute; reflexivity).
  assert (H2 : nth_error outputs_example 1 = Some [3; 4]) by reflexivity.
  assert (H3 : nth_error outputs_example 2 = Some [5; 6]) by reflexivity.
  split; [exact H0|]; split; [exact H1|]; split; [exact H2|]; split; [exact H3|].
  exact (boundary_loop_pairs outputs_example reconciled_example H0 H1 1 _ _ H2 H3).
Defined.

(** Every worker answers with [compute_response] on its chunk, in one unit
    of time; or no worker answers. *)
Definition gather_ok (chunks : list (nat * list Z)) : list (option (list Z) * Q) :=
  map (fun c => (compute_response (snd c), 1%Q)) chunks.
Definition gather_silent (chunks : list (nat * list Z)) : list (option (list Z) * Q) :=
  map (fun _ => (None, 1%Q)) chunks.

Definition state_start : Validator := mkValidator 1 [1] [1] [0%Q] [0%nat] [].
Definition state_late : Validator := mkValidator 64 [1] [1] [0%Q] [0%nat] [].

Lemma do_step_success_witness :
  do_step_dispatch gather_ok state_start = (inr tt, mkValidator 2 [7] [7] [1%Q] [0%nat] []) /\
  step (mkValidator 2 [7] [7] [1%Q] [0%nat] []) = (step state_start + 1) mod word_mod /\
  valid_miners (mkValidator 2 [7] [7] [1%Q] [0%nat] []) = valid_miners state_start /\
  exists data,
    map response_parts
      (combine (valid_miners state_start)
         (gather_ok (partition (current_row state_start) (valid_miners state_start))))
      = map Some data /\
    normalize_response_data data = Some (current_row (mkValidator 2 [7] [7] [1%Q] [0%nat] [])).
Proof.
  assert (H : do_step_dispatch gather_ok state_start
              = (inr tt, mkValidator 2 [7] [7] [1%Q] [0%nat] [])) by (vm_compute; reflexivity).
  split; [exact H | exact (do_step_success gather_ok state_start _ H)].
Defined.

Lemma do_step_failure_keeps_generation_witness :
  do_step_dispatch gather_ok state_late
    = (inl IndexError, mkValidator 64 [7] [1] [1%Q] [0%nat] []) /\
  step (mkValidator 64 [7] [1] [1%Q] [0%nat] []) = step state_late /\
  center_column (mkValidator 64 [7] [1] [1%Q] [0%nat] []) = center_column state_late /\
  valid_miners (mkValidator 64 [7] [1] [1%Q] [0%nat] []) = valid_miners state_late /\
  IndexError <> UnrecoverableError.
Proof.
  assert (H : do_step_dispatch gather_ok state_late
              = (inl IndexError, mkValidator 64 [7] [1] [1%Q] [0%nat] []))
    by (vm_compute; reflexivity).
  split; [exact H | exact (do_step_failure_keeps_generation gather_ok state_late _ _ H)].
Defined.

(** Two workers: the first answers its chunk, the second stays silent. *)
Definition gather_mixed (chunks : list (nat * list Z)) : list (option (list Z) * Q) :=
  match chunks with
  | [] => []
  | c :: rest => (compute_response (snd c), 1%Q) :: map (fun _ => (None, 1%Q)) rest
  end.
Definition state_pair : Validator := mkValidator 1 [1; 2] [1] [0%Q; 0%Q] [0%nat; 1%nat] [].

Lemma do_step_missing_answer_witness :
  map response_parts
    (combine (valid_miners state_pair)
       (gather_mixed (partition (current_row state_pair) (valid_miners state_pair))))
    = [Some [7]; None] /\
  In None (map response_parts
             (combine (valid_miners state_pair)
                (gather_mixed (partition (current_row state_pair) (valid_miners state_pair))))) /\
  exists e s', do_step_dispatch gather_mixed state_pair = (inl e, s') /\
    run_iteration gather_mixed state_pair = (None, s') /\
    step s' = step state_pair /\ current_row s' = current_row state_pair /\
    center_column s' = center_column state_pair.
Proof.
  assert (E : map response_parts
                (combine (valid_miners state_pair)
                   (gather_mixed (partition (current_row state_pair) (valid_miners state_pair))))
              = [Some [7]; None]) by (vm_compute; reflexivity).
  assert (H : In None (map response_parts
                (combine (valid_miners state_pair)
                   (gather_mixed (partition (current_row state_pair)
                                     (valid_miners state_pair)))))) by (rewrite E; right; left; reflexivity).
  split; [exact E|].
  split; [exact H | exact (do_step_missing_answer gather_mixed state_pair H)].
Defined.

Lemma do_step_row_replaced_then_index_error_witness :
  exists s', do_step_dispatch gather_ok state_late = (inl IndexError, s') /\
    current_row s' = [7] /\ step s' = step state_late /\
    center_column s' = center_column state_late.
Proof.
  apply (do_step_row_replaced_then_index_error gather_ok state_late [[7]] [7]).
  - discriminate.
  - reflexivity.
  - repeat constructor.
  - repeat constructor.
  - vm_compute; reflexivity.
  - vm_compute; reflexivity.
  - vm_compute; lia.
Defined.

Definition nodes_swapped : list Node := [mkNode "a" 1; mkNode "b" 0].

Lemma nodes_list_slots_witness :
  Forall (fun nd => (node_id nd < length nodes_swapped)%nat) nodes_swapped /\
  exists slots, nodes_list nodes_swapped = Some slots /\ length slots = length nodes_swapped /\
    forall k, (k < length nodes_swapped)%nat ->
      (nth_error slots k = Some None /\ ~ In k (map node_id nodes_swapped)) \/
      (exists nd, In nd nodes_swapped /\ node_id nd = k /\ nth_error slots k = Some (Some nd)).
Proof.
  assert (H : Forall (fun nd => (node_id nd < length nodes_swapped)%nat) nodes_swapped)
    by (repeat constructor; cbn; lia).
  split; [exact H | exact (nodes_list_slots nodes_swapped H)].
Defined.

Lemma nodes_list_index_error_witness :
  (exists nd, In nd [mkNode "a" 2; mkNode "b" 0] /\
     (length [mkNode "a" 2; mkNode "b" 0] <= node_id nd)%nat) /\
  nodes_list [mkNode "a" 2; mkNode "b" 0] = None.
Proof.
  assert (H : exists nd, In nd [mkNode "a" 2; mkNode "b" 0] /\
                (length [mkNode "a" 2; mkNode "b" 0] <= node_id nd)%nat)
    by (exists (mkNode "a" 2); split; [left; reflexivity | cbn; lia]).
  split; [exact H | exact (nodes_list_index_error _ H)].
Defined.

Definition state_synced : Validator :=
  mkValidator 5 [1] [1] [1%Q; 2%Q; 3%Q] [0%nat; 1%nat] ["a"; "b"; "c"]%string.
Definition nodes_after : list Node := [mkNode "c" 0; mkNode "a" 1].
Definition state_resynced : Validator :=
  mkValidator 5 [1] [1] [1%Q; 0%Q; 3%Q] [] ["c"; "a"]%string.


Lemma sync_members_updates_witness :
  registered nodes_after "a" = true /\ NoDup (map node_id nodes_after) /\
  Forall (fun nd => (node_id nd < length nodes_after)%nat) nodes_after /\
  length (scores state_synced) = length (hotkeys state_synced) /\
  exists s', sync_members nodes_after "a" state_synced = (inr tt, s') /\
    step s' = step state_synced /\ current_row s' = current_row state_synced /\
    center_column s' = center_column state_synced /\ valid_miners s' = [] /\
    length (hotkeys s') = length nodes_after /\
    (forall nd, In nd nodes_after -> nth_error (hotkeys s') (node_id nd) = Some (node_hotkey nd)) /\
    length (scores s') = Nat.max (length nodes_after) (length (hotkeys state_synced)) /\
    (forall k hk, nth_error (hotkeys state_synced) k = Some hk ->
       nth_error (scores s') k =
         if registered nodes_after hk then nth_error (scores state_synced) k else Some 0%Q) /\
    (forall k, (length (hotkeys state_synced) <= k < length nodes_after)%nat ->
       nth_error (scores s') k = Some 0%Q).
Proof.
  assert (H1 : registered nodes_after "a" = true) by reflexivity.
  assert (H2 : NoDup (map node_id nodes_after))
    by (repeat constructor; cbn; intuition discriminate).
  assert (H3 : Forall (fun nd => (node_id nd < length nodes_after)%nat) nodes_after)
    by (repeat constructor; cbn; lia).
  assert (H4 : length (scores state_synced) = length (hotkeys state_synced)) by reflexivity.
  split; [exact H1|]; split; [exact H2|]; split; [exact H3|]; split; [exact H4|].
  exact (sync_members_updates nodes_after "a" state_synced H1 H2 H3 H4).
Defined.


Lemma sync_shrink_weights_mismatch_witness :
  sync_members nodes_after "a" state_synced = (inr tt, state_resynced) /\
  set_weights state_resynced (length nodes_after) "a"
    = inr (mkWeightCall [0%nat; 1%nat] [1%Q; 0%Q; 3%Q] 1) /\
  length (hotkeys state_resynced) = length nodes_after /\
  length (scores state_resynced) = length (hotkeys state_synced) /\
  (length (node_ids (mkWeightCall [0%nat; 1%nat] [1%Q; 0%Q; 3%Q] 1)) <
   length (node_weights (mkWeightCall [0%nat; 1%nat] [1%Q; 0%Q; 3%Q] 1)))%nat.
Proof.
  assert (H1 : registered nodes_after "a" = true) by reflexivity.
  assert (H2 : NoDup (map node_id nodes_after))
    by (repeat constructor; cbn; intuition discriminate).
  assert (H3 : Forall (fun nd => (node_id nd < length nodes_after)%nat) nodes_after)
    by (repeat constructor; cbn; lia).
  assert (H4 : length (scores state_synced) = length (hotkeys state_synced)) by reflexivity.
  assert (H5 : (length nodes_after < length (hotkeys state_synced))%nat) by (cbn; lia).
  assert (H6 : sync_members nodes_after "a" state_synced = (inr tt, state_resynced))
    by (vm_compute; reflexivity).
  assert (H7 : Qle_bool (fold_left Qplus (scores state_resynced) 0%Q) 0%Q = false)
    by (vm_compute; reflexivity).
  assert (H8 : set_weights state_resynced (length nodes_after) "a"
               = inr (mkWeightCall [0%nat; 1%nat] [1%Q; 0%Q; 3%Q] 1))
    by (vm_compute; reflexivity).
  split; [exact H6|]; split; [exact H8|].
  exact (sync_shrink_weights_mismatch nodes_after "a" state_synced state_resynced _
           H1 H2 H3 H4 H5 H6 H7 H8).
Defined.
